(** * go-event-stream-chat: the broadcast registry and the stream session

    A shallow embedding of [main.go]: the [Subscriber] and [Event] structs,
    the three registry methods [Subscribe], [Unsubscribe] and [Publish], the
    streaming handler [receiveChatHandler] and the handler of the send
    endpoint, [sendChatHandler].

    Go channels are reference values, so the runtime state carries a heap of
    channels next to the [Event] value; a [Subscriber] holds the address of
    its channel, and copies of a [Subscriber] (the entry in the slice, the
    value returned by [Subscribe]) share that channel.  The channels are
    unbuffered: a send completes when a goroutine receives from the channel
    and blocks otherwise, so each channel records whether it has a
    receiver. *)

From Stdlib Require Import ZArith.
From stdpp Require Import base tactics option list strings pretty.

Open Scope Z_scope.
Open Scope string_scope.
Open Scope list_scope.
Open Scope nat_scope.

(** ** Outcomes of a Go call *)

(** A call either returns, panics (Go runtime panic), or blocks for ever. *)
Inductive outcome (A : Type) : Type :=
  | Done (a : A)
  | Panic (msg : string)
  | Block.
Arguments Done {A} a.
Arguments Panic {A} msg.
Arguments Block {A}.

(** Sequencing: a panic or a block ends the call. *)
#[global] Instance outcome_ret : MRet outcome := λ A a, Done a.
#[global] Instance outcome_bind : MBind outcome := λ A B k m,
  match m with
  | Done a => k a
  | Panic msg => Panic msg
  | Block => Block
  end.

(** ** Channels *)

(** [[]byte] payloads. *)
Definition payload : Type := list Byte.byte.

(** A [chan []byte] made by [make(chan []byte)]: an unbuffered channel.
    [sent] lists, oldest first, the values whose send on the channel has
    completed, that is, the values handed to a receiver.  [receiving] tells
    whether some goroutine receives from the channel: it waits in a receive
    on it, or comes back to one after each value, as the [select] loop of
    the subscriber's session does. *)
Record chan : Type := mkChan {
  closed : bool;
  sent : list payload;
  receiving : bool;
}.

(** The channel heap: the channel at address [c] is the [c]-th element. *)
Abbreviation heap := (list chan).

(** [make(chan []byte)]: a new open channel at a fresh address, from which
    nobody receives yet. *)
Definition make_chan (h : heap) : nat * heap :=
  (length h, h ++ [mkChan false [] false]).

(** [ch <- data].  A send on a closed channel panics.  The channel is
    unbuffered: the send completes when a receiver takes the value, which is
    recorded in [sent], and with no receiver it blocks for ever.  An address
    without a channel stands for the nil channel, on which a send blocks for
    ever as well. *)
Definition send (c : nat) (data : payload) (h : heap) : outcome heap :=
  match h !! c with
  | None => Block
  | Some ch =>
      if closed ch then Panic "send on closed channel"
      else if receiving ch then Done (<[c := mkChan false (sent ch ++ [data]) true]> h)
      else Block
  end.

(** [close(ch)].  Closing a closed or a nil channel panics. *)
Definition close (c : nat) (h : heap) : outcome heap :=
  match h !! c with
  | None => Panic "close of nil channel"
  | Some ch =>
      if closed ch then Panic "close of closed channel"
      else Done (<[c := mkChan true (sent ch) (receiving ch)]> h)
  end.

(** A goroutine starts ([present] true) or stops receiving from channel [c]. *)
Definition set_receiver (c : nat) (present : bool) (h : heap) : heap :=
  match h !! c with
  | None => h
  | Some ch => <[c := mkChan (closed ch) (sent ch) present]> h
  end.

(** What the reader of channel [c] has been handed so far. *)
Definition outbox (h : heap) (c : nat) : list payload :=
  match h !! c with
  | Some ch => sent ch
  | None => []
  end.

Definition is_closed (h : heap) (c : nat) : bool :=
  match h !! c with
  | Some ch => closed ch
  | None => false
  end.

Definition has_receiver (h : heap) (c : nat) : bool :=
  match h !! c with
  | Some ch => receiving ch
  | None => false
  end.

(** ** The data model *)

Record Subscriber : Type := mkSubscriber {
  ID : string;
  Closed : bool;
  Channel : nat;
}.

Record Event : Type := mkEvent {
  Subscribers : list Subscriber;
}.

(** The state the methods of [*Event] act on: the struct and the channels. *)
Record State : Type := mkState {
  event : Event;
  chans : heap;
}.

Definition init : State := mkState (mkEvent []) [].

(** [fmt.Sprintf("%d", n)]. *)
Definition Sprintf_d (n : Z) : string := pretty n.

(** ** The registry *)

(** [Subscribe].  [now] is the value read from [time.Now().Unix()]. The
    [Closed] field is not set and keeps its zero value. *)
Definition Subscribe (now : Z) (st : State) : Subscriber * State :=
  let '(c, h) := make_chan (chans st) in
  let subscriber := mkSubscriber (Sprintf_d now) false c in
  (subscriber,
   mkState (mkEvent (Subscribers (event st) ++ [subscriber])) h).

(** The [range] loop of [Unsubscribe], at index [i] with [rest] the entries
    still to visit.  The range expression is evaluated once, so the loop
    visits the entries of [st] as they were at loop entry. *)
Fixpoint Unsubscribe_loop (id : string) (i : nat) (rest : list Subscriber)
    (st : State) : outcome State :=
  match rest with
  | [] => Done st
  | s :: rest' =>
      if bool_decide (ID s ≠ id) then Unsubscribe_loop id (S i) rest' st
      else
        let subs := Subscribers (event st) in
        let e' := mkEvent (take i subs ++ drop (S i) subs) in
        h ← close (Channel s) (chans st);
        Done (mkState e' h)
  end.

Definition Unsubscribe (id : string) (st : State) : outcome State :=
  Unsubscribe_loop id 0 (Subscribers (event st)) st.

(** The [range] loop of [Publish]. *)
Fixpoint Publish_loop (data : payload) (rest : list Subscriber) (h : heap)
    : outcome heap :=
  match rest with
  | [] => Done h
  | subscriber :: rest' =>
      h' ← send (Channel subscriber) data h;
      Publish_loop data rest' h'
  end.

Definition Publish (data : payload) (st : State) : outcome State :=
  h ← Publish_loop data (Subscribers (event st)) (chans st);
  Done (mkState (event st) h).

(** ** Histories of calls *)

(** What happens to the registry, one event after the other: a call of one
    of its methods, or a goroutine starting or stopping to receive from a
    channel (a session entering or leaving its [select] loop). *)
Inductive call : Type :=
  | CallSubscribe (now : Z)
  | CallUnsubscribe (id : string)
  | CallPublish (data : payload)
  | Receiver (c : nat) (present : bool).

Definition step (c : call) (st : State) : outcome State :=
  match c with
  | CallSubscribe now => Done (snd (Subscribe now st))
  | CallUnsubscribe id => Unsubscribe id st
  | CallPublish data => Publish data st
  | Receiver c present =>
      Done (mkState (event st) (set_receiver c present (chans st)))
  end.

Fixpoint run (cs : list call) (st : State) : outcome State :=
  match cs with
  | [] => Done st
  | c :: cs' => st' ← step c st; run cs' st'
  end.

(** The states the registry can be in: those a history leads to, from the
    registry [Event{}] the program starts with. *)
Definition reachable (st : State) : Prop :=
  ∃ cs, run cs init = Done st.

Definition live_ids (st : State) : list string := ID <$> Subscribers (event st).
Definition live_chans (st : State) : list nat := Channel <$> Subscribers (event st).

(** ** The stream session *)

(** What one iteration of the handler's [select] yields: a value received
    from the subscriber's channel, together with whether the write of it to
    the peer then fails, or the request context being done. *)
Inductive select_case : Type :=
  | RecvData (data : payload) (write_fails : bool)
  | CtxDone.

(** The calls the handler makes, in order. *)
Inductive action : Type :=
  | SetHeader (key value : string)
  | HttpError (msg : string) (code : nat)
  | DoSubscribe (s : Subscriber)
  | Fprintf (bytes : payload) (failed : bool)
  | Flush
  | LogPrintln (msg : string)
  | DoUnsubscribe (id : string).

(** Where the handler is once the script of [select] outcomes is used up:
    still waiting in [select], or returned. *)
Inductive status : Type :=
  | Streaming
  | Returned.

(** [fmt.Fprintf(w, "data: %s\n\n", string(data))]. *)
Definition sse_frame (data : payload) : payload :=
  String.list_byte_of_string "data: " ++ data ++ [Byte.x0a; Byte.x0a].

(** The [for { select { ... } }] loop.  The error of [Fprintf] is dropped by
    the source, so a failed write goes on to [Flush] and to the next
    iteration; only the [Done] case returns. *)
Fixpoint stream_loop (script : list select_case) : list action * status :=
  match script with
  | [] => ([], Streaming)
  | RecvData data write_fails :: script' =>
      let '(acts, st) := stream_loop script' in
      (Fprintf (sse_frame data) write_fails :: Flush :: acts, st)
  | CtxDone :: _ => ([LogPrintln "Client disconnected"], Returned)
  end.

Definition stream_headers : list action :=
  [SetHeader "Content-Type" "text/event-stream";
   SetHeader "Cache-Control" "no-cache";
   SetHeader "Connection" "keep-alive"].

(** [receiveChatHandler].  [flusher_ok] is the result of the type assertion
    [w.(http.Flusher)]; the deferred [Unsubscribe] runs when the function
    returns.  The result is the calls made, where the handler stands, and
    the registry as this session's own calls leave it. *)
Definition receiveChatHandler (flusher_ok : bool) (now : Z)
    (script : list select_case) (st : State)
    : list action * status * outcome State :=
  if negb flusher_ok then
    (stream_headers ++ [HttpError "Streaming unsupported" 500], Returned, Done st)
  else
    let '(subscriber, st1) := Subscribe now st in
    match stream_loop script with
    | (acts, Returned) =>
        (stream_headers ++ DoSubscribe subscriber :: acts
           ++ [DoUnsubscribe (ID subscriber)],
         Returned, Unsubscribe (ID subscriber) st1)
    | (acts, Streaming) =>
        (stream_headers ++ DoSubscribe subscriber :: acts, Streaming, Done st1)
    end.

(** The calls to [Unsubscribe] among the handler's calls. *)
Definition unsubscribe_calls (acts : list action) : list string :=
  omap (λ a, match a with DoUnsubscribe id => Some id | _ => None end) acts.

(** The subscriber a session obtained from its [Subscribe], if it made one. *)
Definition subscribed (acts : list action) : option Subscriber :=
  head (omap (λ a, match a with DoSubscribe s => Some s | _ => None end) acts).

(** ** Well-formed registries *)

Definition open_in (h : heap) (c : nat) : Prop :=
  ∃ ch, h !! c = Some ch ∧ closed ch = false.

(** No two live entries share a channel, every live channel is open, and no
    entry has [Closed] set. *)
Record wf (st : State) : Prop := mkWf {
  wf_nodup : NoDup (live_chans st);
  wf_open : ∀ c, c ∈ live_chans st → open_in (chans st) c;
  wf_Closed : Forall (λ s, Closed s = false) (Subscribers (event st));
}.

(** ** A history with two subscriptions in one clock second *)

Definition same_second : Z := 1700000000.

Definition twins : list call :=
  [CallSubscribe same_second; CallSubscribe same_second].

Definition hi : payload := String.list_byte_of_string "hi".

(** ** Sample histories *)

(** The state a history leads to from the empty registry. *)
Definition after (cs : list call) : State :=
  match run cs init with
  | Done st => st
  | _ => init
  end.

(** Four subscribers at different seconds, each with its session receiving,
    until the session of the last one leaves its loop. *)
Definition four_sessions : list call :=
  [CallSubscribe 1700000001; Receiver 0 true;
   CallSubscribe 1700000002; Receiver 1 true;
   CallSubscribe 1700000003; Receiver 2 true;
   CallSubscribe 1700000004; Receiver 3 true;
   Receiver 3 false].

(** The last session then unsubscribes. *)
Definition fan_out_calls : list call :=
  four_sessions ++ [CallUnsubscribe "1700000004"].

(** Two subscribers of one second, each with its session receiving. *)
Definition twins_receiving : list call :=
  [CallSubscribe same_second; Receiver 0 true;
   CallSubscribe same_second; Receiver 1 true].

Definition bye : payload := String.list_byte_of_string "bye".

(** A session that relays two payloads, the second write failing, and is
    then cancelled by the peer. *)
Definition demo_script : list select_case :=
  [RecvData hi false; RecvData bye true; CtxDone].

(** ** The send endpoint *)

Record Chat : Type := mkChat {
  UserID : string;
  Message : string;
}.

(** What [sendChatHandler] writes to the response: [http.Error(w, msg, code)],
    or [w.WriteHeader(code)] followed by [w.Write(body)]. *)
Inductive reply : Type :=
  | ReplyError (msg : string) (code : nat)
  | ReplyStatus (code : nat) (body : payload).

(** [sendChatHandler].  The package [encoding/json] is not part of the
    repository, so the handler is taken over the two calls it makes to it:
    [Decode] stands for [json.NewDecoder(r.Body).Decode(&chat)] and [Marshal]
    for [json.Marshal(chat)], each giving its value or the text of its
    error.  A panic in [Publish] leaves the handler before it replies. *)
Definition sendChatHandler (Decode : payload → Chat + string)
    (Marshal : Chat → payload + string) (body : payload) (st : State)
    : outcome (reply * State) :=
  match Decode body with
  | inr err => Done (ReplyError err 400, st)
  | inl chat =>
      match Marshal chat with
      | inr err => Done (ReplyError err 500, st)
      | inl chatRaw =>
          st' ← Publish chatRaw st;
          Done (ReplyStatus 201 (String.list_byte_of_string "Message sent"), st')
      end
  end.

(** ** Reading histories and sessions *)

(** The payloads a history publishes, and the clock values its [Subscribe]
    calls read, in order. *)
Definition publishes (cs : list call) : list payload :=
  omap (λ c, match c with CallPublish data => Some data | _ => None end) cs.

Definition subscribe_times (cs : list call) : list Z :=
  omap (λ c, match c with CallSubscribe now => Some now | _ => None end) cs.

(** The payloads a session receives before its context is done. *)
Fixpoint received (script : list select_case) : list payload :=
  match script with
  | [] => []
  | RecvData data _ :: script' => data :: received script'
  | CtxDone :: _ => []
  end.

(** The bytes a session writes to the peer, write by write. *)
Definition frames (acts : list action) : list payload :=
  omap (λ a, match a with Fprintf bytes _ => Some bytes | _ => None end) acts.

(** Every write is directly followed by a flush. *)
Fixpoint each_write_flushed (acts : list action) : bool :=
  match acts with
  | [] => true
  | Fprintf _ _ :: acts' =>
      match acts' with
      | Flush :: acts'' => each_write_flushed acts''
      | _ => false
      end
  | _ :: acts' => each_write_flushed acts'
  end.

(** Every live subscriber has a goroutine receiving from its channel. *)
Definition receivers_present (st : State) : Prop :=
  Forall (λ s, has_receiver (chans st) (Channel s) = true) (Subscribers (event st)).

(** Every channel made so far is either the channel of a live subscriber or
    closed. *)
Definition accounted (st : State) : Prop :=
  ∀ c, c < length (chans st) → c ∈ live_chans st ∨ is_closed (chans st) c = true.

(** A decoder and an encoder to try the send endpoint with: an empty body
    is an error, any other body is the message of user [u1]. *)
Definition demo_Decode (body : payload) : Chat + string :=
  match body with
  | [] => inr "EOF"
  | _ => inl (mkChat "u1" (String.string_of_list_byte body))
  end.

Definition demo_Marshal (chat : Chat) : payload + string :=
  inl (String.list_byte_of_string (UserID chat +:+ ":" +:+ Message chat)).

(** The state a history leads to from a given state. *)
Definition run_from (cs : list call) (st : State) : State :=
  match run cs st with
  | Done st' => st'
  | _ => st
  end.

(** Two publishes with a newcomer in between, on the fifth channel. *)
Definition later_calls : list call :=
  [CallPublish hi; CallSubscribe 1700000009; Receiver 4 true; CallPublish bye].

(** The same after one more subscriber, whose session starts receiving. *)
Definition newcomer_calls : list call :=
  [Receiver 4 true; CallPublish hi; CallSubscribe 1700000009; Receiver 5 true;
   CallPublish bye].

(** One subscriber nobody receives for. *)
Definition lonely_calls : list call := [CallSubscribe 1700000001].

Example Sprintf_d_ex : Sprintf_d 1700000000 = "1700000000" ∧ Sprintf_d (-5) = "-5" ∧ Sprintf_d 0 = "0".
Proof. vm_compute. done. Qed.

(** ** Channel operations *)

Section heap_facts.
Implicit Types (h : heap) (c : nat) (data : payload).

Lemma open_in_is_closed h c : open_in h c → is_closed h c = false.
Proof. intros (ch & Hc & Ho). unfold is_closed. by rewrite Hc. Qed.

Lemma open_in_lt h c : open_in h c → c < length h.
Proof. intros (ch & Hc & _). by eapply lookup_lt_Some. Qed.

Lemma send_open h c data :
  open_in h c → has_receiver h c = true →
  ∃ ch, h !! c = Some ch ∧
    send c data h = Done (<[c := mkChan false (sent ch ++ [data]) true]> h).
Proof.
  intros (ch & Hc & Ho) Hr. exists ch. split; [done|].
  unfold has_receiver in Hr. rewrite Hc in Hr.
  unfold send. by rewrite Hc, Ho, Hr.
Qed.

Lemma send_inv h c data h' :
  send c data h = Done h' →
  ∃ ch, h !! c = Some ch ∧ closed ch = false ∧ receiving ch = true ∧
    h' = <[c := mkChan false (sent ch ++ [data]) true]> h.
Proof.
  unfold send. destruct (h !! c) as [ch|] eqn:Hc; [|done].
  destruct (closed ch) eqn:Ho; [done|].
  destruct (receiving ch) eqn:Hr; [|done].
  intros [= <-]. exists ch. eauto.
Qed.


Lemma close_inv h c h' :
  close c h = Done h' →
  ∃ ch, h !! c = Some ch ∧ closed ch = false ∧
    h' = <[c := mkChan true (sent ch) (receiving ch)]> h.
Proof.
  unfold close. destruct (h !! c) as [ch|] eqn:Hc; [|done].
  destruct (closed ch) eqn:Ho; [done|].
  intros [= <-]. eauto.
Qed.

Lemma outbox_insert_eq h c ch ch' :
  h !! c = Some ch → outbox (<[c := ch']> h) c = sent ch'.
Proof.
  intros Hc. unfold outbox.
  rewrite list_lookup_insert_eq; [done|]. by eapply lookup_lt_Some.
Qed.

Lemma outbox_insert_ne h c c' ch' :
  c ≠ c' → outbox (<[c := ch']> h) c' = outbox h c'.
Proof. intros Hne. unfold outbox. by rewrite list_lookup_insert_ne. Qed.

Lemma is_closed_insert_eq h c ch ch' :
  h !! c = Some ch → is_closed (<[c := ch']> h) c = closed ch'.
Proof.
  intros Hc. unfold is_closed.
  rewrite list_lookup_insert_eq; [done|]. by eapply lookup_lt_Some.
Qed.

Lemma is_closed_insert_ne h c c' ch' :
  c ≠ c' → is_closed (<[c := ch']> h) c' = is_closed h c'.
Proof. intros Hne. unfold is_closed. by rewrite list_lookup_insert_ne. Qed.

Lemma open_in_insert_ne h c c' ch' :
  c ≠ c' → open_in (<[c := ch']> h) c' ↔ open_in h c'.
Proof. intros Hne. unfold open_in. by rewrite list_lookup_insert_ne. Qed.

(** A send changes the outbox of its channel only, by one value at the
    end, and closes nothing. *)
Lemma send_outbox h c data h' c' :
  send c data h = Done h' →
  outbox h' c' = outbox h c' ++ (if decide (c = c') then [data] else []).
Proof.
  intros (ch & Hc & Ho & Hr & ->)%send_inv. case_decide as Hcc.
  - subst c'. rewrite (outbox_insert_eq _ _ ch) by done.
    unfold outbox. by rewrite Hc.
  - rewrite outbox_insert_ne by done. by rewrite app_nil_r.
Qed.

Lemma send_is_closed h c data h' c' :
  send c data h = Done h' → is_closed h' c' = is_closed h c'.
Proof.
  intros (ch & Hc & Ho & Hr & ->)%send_inv. destruct (decide (c = c')) as [<-|Hne].
  - rewrite (is_closed_insert_eq _ _ ch) by done.
    unfold is_closed. by rewrite Hc, Ho.
  - by rewrite is_closed_insert_ne.
Qed.

Lemma send_length h c data h' : send c data h = Done h' → length h' = length h.
Proof. intros (ch & _ & _ & _ & ->)%send_inv. apply length_insert. Qed.

Lemma send_open_in h c data h' c' :
  send c data h = Done h' → open_in h' c' ↔ open_in h c'.
Proof.
  intros (ch & Hc & Ho & Hr & ->)%send_inv. destruct (decide (c = c')) as [<-|Hne].
  - unfold open_in. rewrite list_lookup_insert_eq by by eapply lookup_lt_Some.
    split; intros _; eauto.
  - by apply open_in_insert_ne.
Qed.

Lemma has_receiver_insert_eq h c ch ch' :
  h !! c = Some ch → has_receiver (<[c := ch']> h) c = receiving ch'.
Proof.
  intros Hc. unfold has_receiver.
  rewrite list_lookup_insert_eq; [done|]. by eapply lookup_lt_Some.
Qed.

Lemma has_receiver_insert_ne h c c' ch' :
  c ≠ c' → has_receiver (<[c := ch']> h) c' = has_receiver h c'.
Proof. intros Hne. unfold has_receiver. by rewrite list_lookup_insert_ne. Qed.

Lemma send_has_receiver h c data h' c' :
  send c data h = Done h' → has_receiver h' c' = has_receiver h c'.
Proof.
  intros (ch & Hc & Ho & Hr & ->)%send_inv. destruct (decide (c = c')) as [<-|Hne].
  - rewrite (has_receiver_insert_eq _ _ ch) by done.
    unfold has_receiver. by rewrite Hc, Hr.
  - by rewrite has_receiver_insert_ne.
Qed.

(** A receiver coming or going leaves the outboxes, the closed flags and the
    number of channels as they are. *)
Lemma set_receiver_outbox h c present c' :
  outbox (set_receiver c present h) c' = outbox h c'.
Proof.
  unfold set_receiver. destruct (h !! c) as [ch|] eqn:Hc; [|done].
  destruct (decide (c = c')) as [<-|Hne].
  - rewrite (outbox_insert_eq _ _ ch) by done. unfold outbox. by rewrite Hc.
  - by rewrite outbox_insert_ne.
Qed.

Lemma set_receiver_is_closed h c present c' :
  is_closed (set_receiver c present h) c' = is_closed h c'.
Proof.
  unfold set_receiver. destruct (h !! c) as [ch|] eqn:Hc; [|done].
  destruct (decide (c = c')) as [<-|Hne].
  - rewrite (is_closed_insert_eq _ _ ch) by done. unfold is_closed. by rewrite Hc.
  - by rewrite is_closed_insert_ne.
Qed.

Lemma set_receiver_length h c present :
  length (set_receiver c present h) = length h.
Proof.
  unfold set_receiver. destruct (h !! c) as [ch|]; [|done]. apply length_insert.
Qed.

Lemma set_receiver_open_in h c present c' :
  open_in (set_receiver c present h) c' ↔ open_in h c'.
Proof.
  unfold set_receiver. destruct (h !! c) as [ch|] eqn:Hc; [|done].
  destruct (decide (c = c')) as [<-|Hne].
  - unfold open_in. rewrite list_lookup_insert_eq by by eapply lookup_lt_Some.
    rewrite Hc. split; intros (ch' & [= <-] & Ho); eauto.
  - by apply open_in_insert_ne.
Qed.

Lemma set_receiver_has_receiver h c present ch :
  h !! c = Some ch → has_receiver (set_receiver c present h) c = present.
Proof.
  intros Hc. unfold set_receiver. rewrite Hc.
  by rewrite (has_receiver_insert_eq _ _ ch).
Qed.
End heap_facts.

(** ** The loops of the registry *)

Section loops.
Implicit Types (st : State) (h : heap) (s : Subscriber) (id : string).

Lemma Unsubscribe_loop_no_match id i rest st :
  Forall (λ s, ID s ≠ id) rest → Unsubscribe_loop id i rest st = Done st.
Proof.
  intros Hall. revert i. induction Hall as [|s rest Hs _ IH]; intros i; simpl.
  - done.
  - by rewrite bool_decide_true.
Qed.

Lemma Unsubscribe_loop_match id i pre s post st :
  Forall (λ s, ID s ≠ id) pre → ID s = id →
  Unsubscribe_loop id i (pre ++ s :: post) st =
    h ← close (Channel s) (chans st);
    Done (mkState
            (mkEvent (take (i + length pre) (Subscribers (event st))
                        ++ drop (S (i + length pre)) (Subscribers (event st))))
            h).
Proof.
  intros Hall Hs. revert i. induction Hall as [|s' pre Hs' _ IH]; intros i; simpl.
  - rewrite bool_decide_false by naive_solver. by rewrite Nat.add_0_r.
  - rewrite bool_decide_true by done. rewrite IH.
    by replace (S i + length pre) with (i + S (length pre)) by lia.
Qed.

(** The entries before the first one with the given id, that one, and the
    entries after it; or no entry has the id. *)
Lemma first_match_split id (l : list Subscriber) :
  Forall (λ s, ID s ≠ id) l ∨
  ∃ pre s post, l = pre ++ s :: post ∧ Forall (λ s, ID s ≠ id) pre ∧ ID s = id.
Proof.
  induction l as [|s l IH].
  - by left.
  - destruct (decide (ID s = id)) as [Heq|Hne].
    + right. exists [], s, l. by repeat split.
    + destruct IH as [Hall|(pre & s' & post & -> & Hall & Hs')].
      * left. by constructor.
      * right. exists (s :: pre), s', post. repeat split; [|done]. by constructor.
Qed.

(** [Unsubscribe] either finds no entry and returns at once, or closes the
    channel of the first entry with the id and drops that entry. *)
Lemma Unsubscribe_cases id st :
  (Forall (λ s, ID s ≠ id) (Subscribers (event st)) ∧ Unsubscribe id st = Done st) ∨
  (∃ pre s post,
      Subscribers (event st) = pre ++ s :: post ∧
      Forall (λ s, ID s ≠ id) pre ∧ ID s = id ∧
      Unsubscribe id st =
        h ← close (Channel s) (chans st); Done (mkState (mkEvent (pre ++ post)) h)).
Proof.
  unfold Unsubscribe.
  destruct (first_match_split id (Subscribers (event st)))
    as [Hall|(pre & s & post & Hl & Hall & Hs)].
  - left. split; [done|]. by apply Unsubscribe_loop_no_match.
  - right. exists pre, s, post. repeat split; try done.
    rewrite Hl at 1. rewrite Unsubscribe_loop_match by done. simpl.
    rewrite Hl. rewrite take_app_length.
    replace (S (length pre)) with (length (pre ++ [s])) by (rewrite length_app; simpl; lia).
    rewrite (cons_middle s pre post), app_assoc, drop_app_length. done.
Qed.

(** [Publish] sends in turn: closed flags and the number of channels stay,
    and each outbox only grows at its end. *)
Lemma Publish_loop_is_closed data rest h h' c :
  Publish_loop data rest h = Done h' → is_closed h' c = is_closed h c.
Proof.
  revert h. induction rest as [|s rest IH]; intros h; simpl.
  - by intros [= ->].
  - destruct (send (Channel s) data h) as [h1| |] eqn:Hsend; simpl; try done.
    intros Hrest. rewrite (IH _ Hrest). by eapply send_is_closed.
Qed.

Lemma Publish_loop_length data rest h h' :
  Publish_loop data rest h = Done h' → length h' = length h.
Proof.
  revert h. induction rest as [|s rest IH]; intros h; simpl.
  - by intros [= ->].
  - destruct (send (Channel s) data h) as [h1| |] eqn:Hsend; simpl; try done.
    intros Hrest. rewrite (IH _ Hrest). by eapply send_length.
Qed.

Lemma Publish_loop_outbox_grows data rest h h' c :
  Publish_loop data rest h = Done h' → ∃ l, outbox h' c = outbox h c ++ l.
Proof.
  revert h. induction rest as [|s rest IH]; intros h; simpl.
  - intros [= ->]. exists []. by rewrite app_nil_r.
  - destruct (send (Channel s) data h) as [h1| |] eqn:Hsend; simpl; try done.
    intros Hrest. destruct (IH _ Hrest) as [l Hl].
    rewrite Hl, (send_outbox _ _ _ _ c Hsend), <-app_assoc. eauto.
Qed.

(** When the channels of the entries are distinct and the loop returns, it
    has handed the payload once to each of them and to no other. *)
Lemma Publish_loop_fan_out data rest h h' :
  NoDup (Channel <$> rest) →
  Publish_loop data rest h = Done h' →
  ∀ c, outbox h' c =
       outbox h c ++ (if decide (c ∈ Channel <$> rest) then [data] else []).
Proof.
  revert h. induction rest as [|s rest IH]; intros h Hnd; simpl.
  - intros [= <-] c.
    destruct (decide (c ∈ [])) as [Hin|_]; [by apply elem_of_nil in Hin|].
    by rewrite app_nil_r.
  - rewrite fmap_cons in Hnd. apply NoDup_cons in Hnd as [Hnotin Hnd].
    destruct (send (Channel s) data h) as [h1| |] eqn:Hsend; simpl; [|done..].
    intros Hrest c. rewrite (IH h1 Hnd Hrest c), (send_outbox _ _ _ _ c Hsend).
    destruct (decide (Channel s = c)) as [<-|Hne].
    + rewrite decide_False by done.
      rewrite decide_True by (apply elem_of_cons; by left).
      by rewrite app_nil_r.
    + rewrite app_nil_r. destruct (decide (c ∈ Channel <$> rest)) as [Hin|Hout'].
      * rewrite decide_True; [done|]. apply elem_of_cons. by right.
      * rewrite decide_False; [done|]. intros [->|?]%elem_of_cons; contradiction.
Qed.

(** The loop returns when each entry's channel is open and has a receiver. *)
Lemma Publish_loop_returns data rest h :
  (∀ c, c ∈ Channel <$> rest → open_in h c ∧ has_receiver h c = true) →
  ∃ h', Publish_loop data rest h = Done h'.
Proof.
  revert h. induction rest as [|s rest IH]; intros h Hok; simpl; [eauto|].
  rewrite fmap_cons in Hok.
  destruct (Hok (Channel s)) as [Hopen Hrecv]; [apply elem_of_cons; by left|].
  destruct (send_open h (Channel s) data Hopen Hrecv) as (ch & Hc & Hsend).
  rewrite Hsend. simpl. apply IH. intros c Hin.
  rewrite (send_open_in _ _ _ _ c Hsend), (send_has_receiver _ _ _ _ c Hsend).
  apply Hok, elem_of_cons. by right.
Qed.


(** The loop blocks at an entry nobody receives for, once it has reached it. *)
Lemma Publish_loop_blocks data pre s post h :
  (∀ c, c ∈ Channel <$> pre → open_in h c ∧ has_receiver h c = true) →
  Channel s ∉ Channel <$> pre →
  open_in h (Channel s) → has_receiver h (Channel s) = false →
  Publish_loop data (pre ++ s :: post) h = Block.
Proof.
  revert h. induction pre as [|s' pre IH]; intros h Hok Hnotin Hopen Hrecv; simpl.
  - destruct Hopen as (ch & Hc & Ho). unfold has_receiver in Hrecv.
    unfold send. rewrite Hc in *. by rewrite Ho, Hrecv.
  - rewrite fmap_cons in Hok, Hnotin. apply not_elem_of_cons in Hnotin as [Hne Hnotin].
    destruct (Hok (Channel s')) as [Hopen' Hrecv']; [apply elem_of_cons; by left|].
    destruct (send_open h (Channel s') data Hopen' Hrecv') as (ch & Hc & Hsend).
    rewrite Hsend. simpl. apply IH; [|done|..].
    + intros c Hin.
      rewrite (send_open_in _ _ _ _ c Hsend), (send_has_receiver _ _ _ _ c Hsend).
      apply Hok, elem_of_cons. by right.
    + by rewrite (send_open_in _ _ _ _ _ Hsend).
    + by rewrite (send_has_receiver _ _ _ _ _ Hsend).
Qed.
End loops.

(** ** The invariant of the registry *)

Section invariant.
Implicit Types (st : State) (h : heap) (s : Subscriber) (id : string).

Lemma wf_init : wf init.
Proof.
  split; simpl.
  - apply NoDup_nil_2.
  - intros c Hc. by apply elem_of_nil in Hc.
  - constructor.
Qed.

Lemma open_in_app h c ch : open_in h c → open_in (h ++ [ch]) c.
Proof.
  intros (ch' & Hc & Ho). exists ch'. split; [|done].
  by apply lookup_app_l_Some.
Qed.

Lemma Subscribe_wf now st : wf st → wf (snd (Subscribe now st)).
Proof.
  intros [Hnd Hopen HCl]. unfold Subscribe. simpl.
  split; unfold live_chans in *; simpl.
  - rewrite fmap_app. simpl. apply NoDup_app. split; [done|]. split.
    + intros c Hc ->%list_elem_of_singleton.
      apply Hopen, open_in_lt in Hc. lia.
    + apply NoDup_singleton.
  - intros c. rewrite fmap_app.
    intros [Hc| ->%list_elem_of_singleton]%elem_of_app.
    + by apply open_in_app, Hopen.
    + exists (mkChan false [] false). split; [|done].
      rewrite lookup_app_r by done. by rewrite Nat.sub_diag.
  - apply Forall_app. split; [done|]. by repeat constructor.
Qed.

(** On a well-formed registry [Unsubscribe] returns; when an entry has the
    id, the first such entry is dropped and its channel, and no other, is
    closed. *)
Lemma Unsubscribe_wf id st :
  wf st →
  (Forall (λ s, ID s ≠ id) (Subscribers (event st)) ∧ Unsubscribe id st = Done st) ∨
  (∃ pre s post ch,
      Subscribers (event st) = pre ++ s :: post ∧
      Forall (λ s, ID s ≠ id) pre ∧ ID s = id ∧
      chans st !! Channel s = Some ch ∧ closed ch = false ∧
      (Channel s ∉ Channel <$> (pre ++ post)) ∧
      Unsubscribe id st =
        Done (mkState (mkEvent (pre ++ post))
                (<[Channel s := mkChan true (sent ch) (receiving ch)]> (chans st)))).
Proof.
  intros [Hnd Hopen HCl].
  destruct (Unsubscribe_cases id st) as [?|(pre & s & post & Hl & Hall & Hs & HU)];
    [by left|right].
  unfold live_chans in *. rewrite Hl in Hnd, Hopen.
  destruct (Hopen (Channel s)) as (ch & Hc & Ho).
  { rewrite fmap_app, fmap_cons, elem_of_app, elem_of_cons. auto. }
  exists pre, s, post, ch. repeat split; try done.
  - rewrite fmap_app, fmap_cons in Hnd.
    apply NoDup_app in Hnd as (_ & Hdisj & [Hnotin _]%NoDup_cons).
    rewrite fmap_app. intros [Hin|Hin]%elem_of_app; [|done].
    apply (Hdisj _ Hin), elem_of_cons. by left.
  - rewrite HU. unfold close. by rewrite Hc, Ho.
Qed.

Lemma Unsubscribe_preserves_wf id st st' :
  wf st → Unsubscribe id st = Done st' → wf st'.
Proof.
  intros Hwf HU.
  destruct (Unsubscribe_wf id st Hwf)
    as [[_ HU']|(pre & s & post & ch & Hl & _ & _ & Hc & Ho & Hnotin & HU')];
    rewrite HU' in HU; injection HU as <-; [done|].
  destruct Hwf as [Hnd Hopen HCl].
  split; unfold live_chans in *; simpl; rewrite Hl in *.
  - rewrite fmap_app, fmap_cons in Hnd. rewrite fmap_app.
    apply NoDup_app in Hnd as (Hpre & Hdisj & [_ Hpost]%NoDup_cons).
    apply NoDup_app. repeat split; [done| |done].
    intros c Hin Hin'. apply (Hdisj _ Hin), elem_of_cons. by right.
  - intros c Hin.
    apply open_in_insert_ne; [by intros <-|].
    apply Hopen. rewrite fmap_app, fmap_cons, elem_of_app, elem_of_cons.
    rewrite fmap_app, elem_of_app in Hin. tauto.
  - apply Forall_app in HCl as [Hpre [_ Hpost]%Forall_cons].
    by apply Forall_app.
Qed.

(** When [Publish] returns on a well-formed registry, it has kept the
    [Event] and handed the payload once to every live channel and to no
    other. *)
Lemma Publish_wf data st st' :
  wf st → Publish data st = Done st' →
  ∃ h', st' = mkState (event st) h' ∧
    length h' = length (chans st) ∧
    (∀ c, is_closed h' c = is_closed (chans st) c) ∧
    (∀ c, has_receiver h' c = has_receiver (chans st) c) ∧
    (∀ c, open_in h' c ↔ open_in (chans st) c) ∧
    (∀ c, outbox h' c =
          outbox (chans st) c ++ (if decide (c ∈ live_chans st) then [data] else [])).
Proof.
  intros [Hnd Hopen _]. unfold Publish.
  destruct (Publish_loop data (Subscribers (event st)) (chans st)) as [h'| |] eqn:Hloop;
    simpl; [|done..].
  intros [= <-]. exists h'. split; [done|].
  split; [by eapply Publish_loop_length|].
  split; [by intros c; eapply Publish_loop_is_closed|].
  split; [|split; [|by apply (Publish_loop_fan_out data _ _ _ Hnd Hloop)]].
  - clear -Hloop. revert Hloop. generalize (chans st) as h.
    induction (Subscribers (event st)) as [|s rest IH]; intros h; simpl.
    + by intros [= ->].
    + destruct (send (Channel s) data h) as [h2| |] eqn:Hsend; simpl; try done.
      intros Hrest c. rewrite (IH _ Hrest). by apply (send_has_receiver _ _ _ _ c Hsend).
  - clear -Hloop. revert Hloop. generalize (chans st) as h.
    induction (Subscribers (event st)) as [|s rest IH]; intros h; simpl.
    + by intros [= ->].
    + destruct (send (Channel s) data h) as [h2| |] eqn:Hsend; simpl; try done.
      intros Hrest c. rewrite (IH _ Hrest). by apply (send_open_in _ _ _ _ c Hsend).
Qed.

(** On a well-formed registry [Publish] returns when every live subscriber
    has a receiver, and in no case panics. *)
Lemma Publish_returns data st :
  wf st → receivers_present st → ∃ st', Publish data st = Done st'.
Proof.
  intros Hwf Hrecv.
  destruct (Publish_loop_returns data (Subscribers (event st)) (chans st))
    as [h' Hloop].
  { intros c (s & -> & Hs)%list_elem_of_fmap. split.
    - apply (wf_open _ Hwf). unfold live_chans. apply list_elem_of_fmap. eauto.
    - unfold receivers_present in Hrecv. rewrite Forall_forall in Hrecv. by apply Hrecv. }
  unfold Publish. rewrite Hloop. simpl. eauto.
Qed.


Lemma Publish_preserves_wf data st st' :
  wf st → Publish data st = Done st' → wf st'.
Proof.
  intros Hwf HP.
  destruct (Publish_wf data st st' Hwf HP) as (h' & -> & _ & _ & _ & Hop & _).
  destruct Hwf as [Hnd Hopen HCl]. split; simpl; [done| |done].
  intros c Hin. apply Hop. by apply Hopen.
Qed.

(** On a well-formed registry [Unsubscribe] returns. *)
Lemma Unsubscribe_returns id st :
  wf st → ∃ st', Unsubscribe id st = Done st' ∧ wf st'.
Proof.
  intros Hwf.
  destruct (Unsubscribe_wf id st Hwf) as [[_ HU]|(?&?&?&?&_&_&_&_&_&_&HU)];
    eexists; (split; [exact HU|]); by eapply Unsubscribe_preserves_wf.
Qed.

Lemma Receiver_wf c present st :
  wf st → wf (mkState (event st) (set_receiver c present (chans st))).
Proof.
  intros [Hnd Hopen HCl]. split; simpl; [done| |done].
  intros c' Hin. apply set_receiver_open_in. by apply Hopen.
Qed.

Lemma step_preserves_wf c st st' : wf st → step c st = Done st' → wf st'.
Proof.
  intros Hwf. destruct c as [now|id|data|c present]; simpl.
  - intros [= <-]. by apply Subscribe_wf.
  - by apply Unsubscribe_preserves_wf.
  - by apply Publish_preserves_wf.
  - intros [= <-]. by apply Receiver_wf.
Qed.


Lemma run_cons_inv c cs st st' :
  run (c :: cs) st = Done st' →
  ∃ st1, step c st = Done st1 ∧ run cs st1 = Done st'.
Proof.
  simpl. destruct (step c st) as [st1| |]; simpl; [eauto|done..].
Qed.

Lemma run_preserves_wf cs st st' : wf st → run cs st = Done st' → wf st'.
Proof.
  revert st. induction cs as [|c cs IH]; intros st Hwf.
  - by intros [= <-].
  - intros (st1 & Hstep & Hrun)%run_cons_inv.
    apply (IH st1); [|done]. by eapply step_preserves_wf.
Qed.


Lemma reachable_wf st : reachable st → wf st.
Proof. intros [cs Hrun]. eapply run_preserves_wf; [apply wf_init|done]. Qed.

Lemma run_app cs1 cs2 st :
  run (cs1 ++ cs2) st = st' ← run cs1 st; run cs2 st'.
Proof.
  revert st. induction cs1 as [|c cs1 IH]; intros st; simpl; [done|].
  destruct (step c st); simpl; [apply IH|done..].
Qed.
End invariant.

(** ** Channels along a history *)

Section history.
Implicit Types (st : State) (h : heap) (s : Subscriber) (id : string).

Lemma outbox_app h ch c : outbox (h ++ [ch]) c = outbox h c ++ (if decide (c = length h) then sent ch else []).
Proof.
  unfold outbox. destruct (h !! c) as [ch'|] eqn:Hc.
  - rewrite (lookup_app_l_Some _ _ _ _ Hc).
    apply lookup_lt_Some in Hc. rewrite decide_False by lia. by rewrite app_nil_r.
  - apply lookup_ge_None in Hc. rewrite lookup_app_r by done.
    case_decide as Heq.
    + subst c. by rewrite Nat.sub_diag.
    + destruct (c - length h) as [|n] eqn:Hn; [lia|done].
Qed.

Lemma is_closed_app h ch c : is_closed h c = true → is_closed (h ++ [ch]) c = true.
Proof.
  unfold is_closed. destruct (h !! c) as [ch'|] eqn:Hc; [|done].
  by rewrite (lookup_app_l_Some _ _ _ _ Hc).
Qed.

(** A closed channel stays closed. *)
Lemma step_is_closed c st st' c0 :
  wf st → step c st = Done st' →
  is_closed (chans st) c0 = true → is_closed (chans st') c0 = true.
Proof.
  intros Hwf Hstep Hcl. destruct c as [now|id|data|c present]; simpl in Hstep.
  - injection Hstep as <-. simpl. by apply is_closed_app.
  - destruct (Unsubscribe_wf id st Hwf)
      as [[_ HU]|(pre & s & post & ch & _ & _ & _ & Hc & _ & _ & HU)];
      rewrite HU in Hstep; injection Hstep as <-; [done|]. simpl.
    destruct (decide (Channel s = c0)) as [<-|Hne].
    + by rewrite (is_closed_insert_eq _ _ ch).
    + by rewrite is_closed_insert_ne.
  - destruct (Publish_wf data st st' Hwf Hstep) as (h' & -> & _ & Hsame & _).
    simpl. by rewrite Hsame.
  - injection Hstep as <-. simpl. by rewrite set_receiver_is_closed.
Qed.

(** An outbox only grows, at its end. *)
Lemma step_outbox c st st' c0 :
  wf st → step c st = Done st' →
  ∃ l, outbox (chans st') c0 = outbox (chans st) c0 ++ l.
Proof.
  intros Hwf Hstep. destruct c as [now|id|data|c present]; simpl in Hstep.
  - injection Hstep as <-. simpl. rewrite outbox_app. eauto.
  - destruct (Unsubscribe_wf id st Hwf)
      as [[_ HU]|(pre & s & post & ch & _ & _ & _ & Hc & _ & _ & HU)];
      rewrite HU in Hstep; injection Hstep as <-.
    + exists []. by rewrite app_nil_r.
    + exists []. rewrite app_nil_r. simpl.
      destruct (decide (Channel s = c0)) as [<-|Hne].
      * rewrite (outbox_insert_eq _ _ ch) by done. unfold outbox. by rewrite Hc.
      * by rewrite outbox_insert_ne.
  - destruct (Publish_wf data st st' Hwf Hstep) as (h' & -> & _ & _ & _ & _ & Hout).
    simpl. rewrite Hout. eauto.
  - injection Hstep as <-. simpl. rewrite set_receiver_outbox.
    exists []. by rewrite app_nil_r.
Qed.

Lemma run_is_closed cs st st' c0 :
  wf st → run cs st = Done st' →
  is_closed (chans st) c0 = true → is_closed (chans st') c0 = true.
Proof.
  revert st. induction cs as [|c cs IH]; intros st Hwf.
  - by intros [= ->].
  - intros (st1 & Hstep & Hrun)%run_cons_inv Hcl.
    pose proof (step_preserves_wf c st st1 Hwf Hstep) as Hwf1.
    apply (IH st1 Hwf1 Hrun).
    exact (step_is_closed c st st1 c0 Hwf Hstep Hcl).
Qed.

Lemma run_outbox cs st st' c0 :
  wf st → run cs st = Done st' →
  ∃ l, outbox (chans st') c0 = outbox (chans st) c0 ++ l.
Proof.
  revert st. induction cs as [|c cs IH]; intros st Hwf.
  - intros [= ->]. exists []. by rewrite app_nil_r.
  - intros (st1 & Hstep & Hrun)%run_cons_inv.
    pose proof (step_preserves_wf c st st1 Hwf Hstep) as Hwf1.
    destruct (IH st1 Hwf1 Hrun) as [l2 Hl2].
    destruct (step_outbox c st st1 c0 Hwf Hstep) as [l1 Hl1].
    exists (l1 ++ l2). by rewrite Hl2, Hl1, app_assoc.
Qed.

(** The entry [Unsubscribe] drops is the one whose channel it closes. *)
Lemma Unsubscribe_dropped_closed id st st' s :
  wf st → Unsubscribe id st = Done st' →
  s ∈ Subscribers (event st) → s ∉ Subscribers (event st') →
  ID s = id ∧ is_closed (chans st') (Channel s) = true ∧
  outbox (chans st') (Channel s) = outbox (chans st) (Channel s).
Proof.
  intros Hwf HU Hin Hout.
  destruct (Unsubscribe_wf id st Hwf)
    as [[_ HU']|(pre & s' & post & ch & Hl & _ & Hs' & Hc & _ & _ & HU')];
    rewrite HU' in HU; injection HU as <-; [contradiction|].
  simpl in Hout. rewrite Hl in Hin.
  assert (s = s') as ->.
  { apply elem_of_app in Hin as [Hin|[->|Hin]%elem_of_cons]; [|done|].
    - destruct Hout. apply elem_of_app. by left.
    - destruct Hout. apply elem_of_app. by right. }
  simpl. rewrite (is_closed_insert_eq _ _ ch), (outbox_insert_eq _ _ ch) by done.
  unfold outbox. by rewrite Hc.
Qed.
End history.

(** ** Unsubscribe when the live ids are pairwise distinct *)

Section unique_ids.
Implicit Types (st : State) (s : Subscriber) (id : string).

(** An unknown id: the loop finds nothing and the state is untouched. *)
Lemma Unsubscribe_unknown id st :
  id ∉ live_ids st → Unsubscribe id st = Done st.
Proof.
  intros Hnotin. apply Unsubscribe_loop_no_match, Forall_forall.
  intros s Hs Heq. apply Hnotin. unfold live_ids.
  apply list_elem_of_fmap. eauto.
Qed.

Lemma Unsubscribe_removes_unique id st st' :
  wf st → NoDup (live_ids st) → Unsubscribe id st = Done st' → id ∉ live_ids st'.
Proof.
  intros Hwf Hnd HU. unfold live_ids in *.
  destruct (Unsubscribe_wf id st Hwf)
    as [[Hall HU']|(pre & s & post & ch & Hl & Hall & Hs & _ & _ & _ & HU')];
    rewrite HU' in HU; injection HU as <-.
  - intros (s & Hs & Hin)%list_elem_of_fmap.
    rewrite Forall_forall in Hall. by apply (Hall s).
  - simpl. rewrite Hl, fmap_app, fmap_cons in Hnd.
    apply NoDup_app in Hnd as (_ & Hdisj & [Hnotin _]%NoDup_cons).
    rewrite fmap_app. intros [Hin|Hin]%elem_of_app.
    + apply (Hdisj _ Hin). rewrite Hs. apply elem_of_cons. by left.
    + apply Hnotin. by rewrite Hs.
Qed.

Lemma Unsubscribe_twice_unique id st st' :
  wf st → NoDup (live_ids st) → Unsubscribe id st = Done st' →
  Unsubscribe id st' = Done st'.
Proof.
  intros Hwf Hnd HU. by eapply Unsubscribe_unknown, Unsubscribe_removes_unique.
Qed.

Lemma Sprintf_d_inj now1 now2 : Sprintf_d now1 = Sprintf_d now2 → now1 = now2.
Proof. unfold Sprintf_d. apply (inj pretty). Qed.
End unique_ids.

(** ** The select loop *)

Section session.
Lemma stream_loop_unsubscribe_calls script :
  unsubscribe_calls (stream_loop script).1 = [].
Proof.
  induction script as [|[data fails|] script IH]; simpl; [done| |done].
  destruct (stream_loop script) as [acts st]. done.
Qed.

Lemma stream_loop_no_subscribe script :
  omap (λ a, match a with DoSubscribe s => Some s | _ => None end)
    (stream_loop script).1 = [].
Proof.
  induction script as [|[data fails|] script IH]; simpl; [done| |done].
  destruct (stream_loop script) as [acts st]. done.
Qed.

Lemma stream_loop_Returned script :
  (stream_loop script).2 = Returned ↔ CtxDone ∈ script.
Proof.
  induction script as [|[data fails|] script IH]; simpl.
  - split; [done|]. by intros ?%elem_of_nil.
  - destruct (stream_loop script) as [acts st]. simpl in *.
    rewrite IH, elem_of_cons. split; [auto|]. by intros [?|?].
  - split; [|done]. intros _. apply elem_of_cons. by left.
Qed.
End session.

(** * The registry's properties *)

Section registry_properties.
  Implicit Types (st : State) (s : Subscriber) (id : string) (data : payload).

(** C1 (fails on the code): identifiers returned by [Subscribe] are meant to
    be pairwise distinct.  [Subscribe] takes the identifier from the clock
    in whole seconds, so two calls that read the same second return the same
    [ID]: both subscribers are live, on different channels, under one id. *)
Theorem Subscribe_same_second_same_ID now st :
  let r1 := Subscribe now st in
  let r2 := Subscribe now r1.2 in
  ID r1.1 = ID r2.1 ∧
  Channel r1.1 ≠ Channel r2.1 ∧
  Subscribers (event r2.2) = Subscribers (event st) ++ [r1.1; r2.1] ∧
  ¬ NoDup (live_ids r2.2).
Proof.
  unfold Subscribe, live_ids. simpl. repeat split.
  - rewrite length_app. simpl. lia.
  - by rewrite <-app_assoc.
  - rewrite <-app_assoc, fmap_app. simpl.
    intros (_ & _ & [Hnotin _]%NoDup_cons)%NoDup_app.
    apply Hnotin, elem_of_cons. by left.
Qed.

(** C2 (as amended): on every reachable registry, [Publish data] returns
    when every live subscriber has a receiver; whenever it returns, it has
    handed exactly one copy of [data] to the outbox of every subscriber in
    the live set and nothing to a channel outside the live set, and so
    nothing to a subscriber [s] after an [Unsubscribe] with the id of [s],
    called while no other live subscriber had that id. *)
Theorem Publish_fan_out st data :
  reachable st →
  (receivers_present st → ∃ st', Publish data st = Done st') ∧
  (∀ st', Publish data st = Done st' →
     (∀ s, s ∈ Subscribers (event st) →
        outbox (chans st') (Channel s) = outbox (chans st) (Channel s) ++ [data]) ∧
     (∀ c, c ∉ live_chans st → outbox (chans st') c = outbox (chans st) c) ∧
     (∀ st0 s cs,
        reachable st0 → s ∈ Subscribers (event st0) →
        (∀ s', s' ∈ Subscribers (event st0) → ID s' = ID s → s' = s) →
        run (CallUnsubscribe (ID s) :: cs) st0 = Done st →
        outbox (chans st') (Channel s) = outbox (chans st) (Channel s))).
Proof.
  intros Hwf%reachable_wf. split; [by apply Publish_returns|].
  intros st' HP.
  destruct (Publish_wf data st st' Hwf HP) as (h' & -> & _ & _ & _ & _ & Hout).
  split; [|split].
  - intros s Hs. simpl. rewrite Hout, decide_True; [done|].
    unfold live_chans. apply list_elem_of_fmap. eauto.
  - intros c Hc. simpl. by rewrite Hout, decide_False, app_nil_r.
  - intros st0 s cs Hwf0%reachable_wf Hin Huniq (st1 & HU & Hrun)%run_cons_inv.
    simpl in HU |- *.
    assert (is_closed (chans st1) (Channel s) = true) as Hcl.
    { destruct (Unsubscribe_wf (ID s) st0 Hwf0)
        as [[Hall _]|(pre & s1 & post & ch & Hl & _ & Hs1 & Hch & _ & _ & HU')].
      - rewrite Forall_forall in Hall. by destruct (Hall s Hin).
      - rewrite HU' in HU. injection HU as <-. simpl.
        assert (s1 = s) as ->.
        { apply Huniq; [|done]. rewrite Hl, elem_of_app, elem_of_cons. auto. }
        by rewrite (is_closed_insert_eq _ _ ch). }
    assert (wf st1) as Hwf1 by by eapply Unsubscribe_preserves_wf.
    pose proof (run_is_closed cs st1 st (Channel s) Hwf1 Hrun Hcl) as Hcl'.
    rewrite Hout, decide_False; [by rewrite app_nil_r|].
    intros Hlive%(wf_open _ Hwf)%open_in_is_closed. congruence.
Qed.

(** C3: when one caller has published [p1] and later [p2], with anything
    happening to the registry in between, a subscriber registered before
    both has [p1] in its outbox ahead of everything delivered afterwards,
    and, being still registered at the second publish, has [p2] after it.
    With a receiver for every live subscriber the two publishes, one right
    after the other, do return. *)
Theorem Publish_order st s p1 p2 :
  reachable st → s ∈ Subscribers (event st) →
  (∀ mid st',
     run (CallPublish p1 :: mid ++ [CallPublish p2]) st = Done st' →
     ∃ l,
       outbox (chans st') (Channel s) = outbox (chans st) (Channel s) ++ p1 :: l ∧
       (s ∈ Subscribers (event st') → ∃ l', l = l' ++ [p2])) ∧
  (receivers_present st →
   ∃ st', run [CallPublish p1; CallPublish p2] st = Done st' ∧
     outbox (chans st') (Channel s) = outbox (chans st) (Channel s) ++ [p1; p2]).
Proof.
  intros Hwf%reachable_wf Hs.
  assert (Channel s ∈ live_chans st) as Hlive.
  { unfold live_chans. apply list_elem_of_fmap. eauto. }
  split.
  - intros mid st' (st1 & HP1 & Hrest)%run_cons_inv. simpl in HP1.
    rewrite run_app in Hrest.
    destruct (run mid st1) as [st2| |] eqn:Hmid; simpl in Hrest; [|done..].
    destruct (Publish p2 st2) as [st3| |] eqn:HP2; simpl in Hrest; [|done..].
    injection Hrest as <-.
    pose proof (Publish_preserves_wf p1 st st1 Hwf HP1) as Hwf1.
    pose proof (run_preserves_wf mid st1 st2 Hwf1 Hmid) as Hwf2.
    destruct (Publish_wf p1 st st1 Hwf HP1) as (h1 & -> & _ & _ & _ & _ & Hout1).
    destruct (Publish_wf p2 st2 st3 Hwf2 HP2) as (h3 & -> & _ & _ & _ & _ & Hout3).
    destruct (run_outbox mid _ st2 (Channel s) Hwf1 Hmid) as [l1 Hl1]. simpl in Hl1.
    exists (l1 ++ if decide (Channel s ∈ live_chans st2) then [p2] else []).
    simpl. split.
    + rewrite Hout3, Hl1, Hout1, decide_True by done. by rewrite <-!app_assoc.
    + intros Hs2. exists l1. rewrite decide_True; [done|].
      unfold live_chans. apply list_elem_of_fmap. eauto.
  - intros Hrecv.
    destruct (Publish_returns p1 st Hwf Hrecv) as [st1 HP1].
    pose proof (Publish_preserves_wf p1 st st1 Hwf HP1) as Hwf1.
    destruct (Publish_wf p1 st st1 Hwf HP1) as (h1 & -> & _ & _ & Hr1 & _ & Hout1).
    destruct (Publish_returns p2 (mkState (event st) h1) Hwf1) as [st2 HP2].
    { unfold receivers_present in *. simpl. eapply Forall_impl; [exact Hrecv|].
      intros s' Hs'. simpl in Hs'. by rewrite Hr1. }
    destruct (Publish_wf p2 _ st2 Hwf1 HP2) as (h2 & -> & _ & _ & _ & _ & Hout2).
    exists (mkState (event st) h2). simpl. rewrite HP1. simpl. rewrite HP2. simpl.
    split; [done|].
    rewrite Hout2, Hout1. unfold live_chans in *. simpl.
    rewrite !decide_True by done. by rewrite <-app_assoc.
Qed.

(** C4 (fails on the code): after [Unsubscribe(id)] returns, the subscriber
    holding [id] is meant to be out of the live set with its outbox closed,
    and no later [Publish] is meant to reach it.  Subscribers [a] and [b]
    register in one clock second and so hold one id.  [Unsubscribe] with the
    id of [b] drops [a] and closes the channel of [a]: [b] stays live, its
    channel open, and the next [Publish] sends to it; the send waits for
    ever while nobody receives from the channel of [b], and is delivered
    once somebody does. *)
Theorem Unsubscribe_twin_stays_live :
  ∃ a b st_a st st',
    Subscribe same_second init = (a, st_a) ∧
    Subscribe same_second st_a = (b, st) ∧
    Unsubscribe (ID b) st = Done st' ∧
    Subscribers (event st') = [b] ∧
    ID b ∈ live_ids st' ∧
    is_closed (chans st') (Channel a) = true ∧
    is_closed (chans st') (Channel b) = false ∧
    (∀ data, Publish data st' = Block) ∧
    ∀ data, ∃ st'',
      Publish data (mkState (event st') (set_receiver (Channel b) true (chans st')))
      = Done st'' ∧
      outbox (chans st'') (Channel b) = [data].
Proof.
  eexists _, _, _, _, _. split; [reflexivity|]. split; [reflexivity|].
  split; [vm_compute; reflexivity|]. split; [reflexivity|].
  split; [apply list_elem_of_here|]. split; [reflexivity|]. split; [reflexivity|].
  split; [reflexivity|].
  intros data. eexists. split; reflexivity.
Qed.

(** C6 (fails on the code): a second [Unsubscribe(id)] is meant to change
    nothing.  With the two subscriptions of one clock second, the first call
    drops one subscriber and the second call drops the other. *)
Theorem Unsubscribe_twice_twins :
  ∃ st st1 st2,
    run twins init = Done st ∧
    Unsubscribe "1700000000" st = Done st1 ∧
    Unsubscribe "1700000000" st1 = Done st2 ∧
    Subscribers (event st1) = [mkSubscriber "1700000000" false 1] ∧
    Subscribers (event st2) = [] ∧
    st2 ≠ st1.
Proof.
  eexists _, _, _. split; [vm_compute; reflexivity|].
  split; [vm_compute; reflexivity|].
  split; [vm_compute; reflexivity|].
  split; [reflexivity|]. split; [reflexivity|]. discriminate.
Qed.

(** C8: [Publish] on a registry without subscribers returns, and the state,
    every channel included, is the one before the call. *)
Theorem Publish_no_subscribers st data :
  Subscribers (event st) = [] → Publish data st = Done st.
Proof.
  intros Hnil. unfold Publish. rewrite Hnil. simpl. by destruct st.
Qed.

(** C9: in every reachable registry the [Closed] field of every subscriber
    is false; [Subscribe] returns it false, and it is still false on a
    subscriber whose channel [Unsubscribe] has just closed. *)
Theorem Closed_never_set st :
  reachable st →
  Forall (λ s, Closed s = false) (Subscribers (event st)) ∧
  (∀ now, Closed (Subscribe now st).1 = false) ∧
  (∀ id st' s,
     Unsubscribe id st = Done st' →
     s ∈ Subscribers (event st) → s ∉ Subscribers (event st') →
     is_closed (chans st') (Channel s) = true ∧ Closed s = false).
Proof.
  intros Hwf%reachable_wf. split; [apply (wf_Closed _ Hwf)|]. split; [done|].
  intros id st' s HU Hin Hgone.
  destruct (Unsubscribe_dropped_closed id st st' s Hwf HU Hin Hgone) as (_ & Hcl & _).
  split; [done|].
  pose proof (wf_Closed _ Hwf) as HCl. rewrite Forall_forall in HCl. by apply HCl.
Qed.

(** C10: whenever [Publish] returns, the [Event], and so the subscriber
    entries, their ids and their order, is as before the call; the channels
    are the same in number, none is closed or reopened, and each outbox
    keeps what it held, as a prefix.  On a reachable registry [Publish]
    does return when every live subscriber has a receiver. *)
Theorem Publish_frame st data :
  (∀ st', Publish data st = Done st' →
     event st' = event st ∧
     length (chans st') = length (chans st) ∧
     (∀ c, is_closed (chans st') c = is_closed (chans st) c) ∧
     (∀ c, ∃ l, outbox (chans st') c = outbox (chans st) c ++ l)) ∧
  (reachable st → receivers_present st → ∃ st', Publish data st = Done st').
Proof.
  split.
  - intros st'. unfold Publish.
    destruct (Publish_loop data (Subscribers (event st)) (chans st))
      as [h| |] eqn:Hloop; simpl; [|done..].
    intros [= <-]. simpl. split; [done|].
    split; [by eapply Publish_loop_length|].
    split; intros c.
    + by eapply Publish_loop_is_closed.
    + by eapply Publish_loop_outbox_grows.
  - intros Hwf%reachable_wf. by apply Publish_returns.
Qed.
End registry_properties.

(** * The stream session's properties *)

Section session_properties.
  Implicit Types (st : State) (script : list select_case).

(** C7: a handler whose writer cannot flush returns without subscribing
    and makes no [Unsubscribe] call.  Otherwise it subscribes first; it
    returns exactly when the peer cancels, whatever the writes before did,
    and then it has called [Unsubscribe] once, with the id its [Subscribe]
    returned, as its last call; while it is still streaming it has not
    called [Unsubscribe].  On a reachable registry that call returns. *)
Theorem session_unsubscribes_once flusher_ok now script st acts status out :
  receiveChatHandler flusher_ok now script st = (acts, status, out) →
  let sub := (Subscribe now st).1 in
  (flusher_ok = false →
     subscribed acts = None ∧ unsubscribe_calls acts = [] ∧ out = Done st) ∧
  (flusher_ok = true →
     subscribed acts = Some sub ∧
     (status = Returned ↔ CtxDone ∈ script) ∧
     (status = Returned →
        unsubscribe_calls acts = [ID sub] ∧
        last acts = Some (DoUnsubscribe (ID sub)) ∧
        out = Unsubscribe (ID sub) (Subscribe now st).2 ∧
        (reachable st → ∃ st', out = Done st')) ∧
     (status = Streaming →
        unsubscribe_calls acts = [] ∧ out = Done (Subscribe now st).2)).
Proof.
  unfold receiveChatHandler. destruct flusher_ok; simpl.
  2: { intros [= <- <- <-]. by split. }
  pose proof (stream_loop_unsubscribe_calls script) as Hnone.
  pose proof (stream_loop_no_subscribe script) as Hnosub.
  pose proof (stream_loop_Returned script) as Hret.
  destruct (stream_loop script) as [loop_acts [|]]; simpl in *;
    intros [= <- <- <-]; (split; [done|]); intros _; (split; [done|]).
  - split; [split; [done|]; intros Hin%Hret; done|].
    split; [done|]. intros _. split; [|done].
    unfold unsubscribe_calls in *. simpl. exact Hnone.
  - split; [done|]. split; [|done]. intros _.
    unfold unsubscribe_calls in *. simpl.
    rewrite omap_app, Hnone. simpl. split; [done|].
    split; [by rewrite !app_comm_cons, last_snoc|]. split; [done|].
    intros Hwf%reachable_wf.
    apply (Subscribe_wf now) in Hwf.
    destruct (Unsubscribe_returns (Sprintf_d now) _ Hwf) as (st' & HU & _).
    eauto.
Qed.
End session_properties.

(** * The properties at sample inputs *)

Example Subscribe_twins :
  live_ids (after twins) = ["1700000000"; "1700000000"] ∧
  live_chans (after twins) = [0; 1].
Proof. vm_compute. done. Qed.

Example Subscribe_reuses_id :
  live_ids (after [CallSubscribe same_second; CallUnsubscribe "1700000000";
                   CallSubscribe same_second]) = ["1700000000"].
Proof. vm_compute. done. Qed.

Example fan_out_live :
  live_ids (after fan_out_calls) = ["1700000001"; "1700000002"; "1700000003"] ∧
  (λ c, is_closed (chans (after fan_out_calls)) c) <$> [0; 1; 2; 3]
    = [false; false; false; true].
Proof. vm_compute. done. Qed.

Lemma reachable_after_fan_out : reachable (after fan_out_calls).
Proof. exists fan_out_calls. vm_compute. reflexivity. Defined.

Lemma receivers_after_fan_out : receivers_present (after fan_out_calls).
Proof. apply (bool_decide_unpack _). vm_compute. exact I. Defined.

Lemma Publish_fan_out_witness :
  reachable (after fan_out_calls) ∧
  receivers_present (after fan_out_calls) ∧
  ∃ st', Publish hi (after fan_out_calls) = Done st' ∧
    (∀ s, s ∈ Subscribers (event (after fan_out_calls)) →
       outbox (chans st') (Channel s)
       = outbox (chans (after fan_out_calls)) (Channel s) ++ [hi]) ∧
    outbox (chans st') 3 = outbox (chans (after fan_out_calls)) 3.
Proof.
  split; [exact reachable_after_fan_out|]. split; [exact receivers_after_fan_out|].
  destruct (Publish_fan_out (after fan_out_calls) hi reachable_after_fan_out)
    as [Hreturns Hfan].
  destruct (Hreturns receivers_after_fan_out) as [st' HP].
  exists st'. split; [exact HP|].
  destruct (Hfan st' HP) as (Hlive & _ & Hgone). split; [exact Hlive|].
  assert (reachable (after four_sessions)) as Hreach0
    by (exists four_sessions; vm_compute; reflexivity).
  assert (mkSubscriber "1700000004" false 3 ∈ Subscribers (event (after four_sessions)))
    as Hin by (vm_compute; do 3 apply list_elem_of_further; apply list_elem_of_here).
  apply (Hgone (after four_sessions) (mkSubscriber "1700000004" false 3) []
           Hreach0 Hin).
  - intros s' Hs' Hid. vm_compute in Hs'.
    repeat (apply elem_of_cons in Hs' as [->|Hs']; [try discriminate Hid; try reflexivity|]).
    by apply elem_of_nil in Hs'.
  - vm_compute. reflexivity.
Defined.

Lemma Publish_fan_out_counterexample :
  ¬ (∀ st data, reachable st →
       ∃ st', Publish data st = Done st' ∧
         ∀ s, s ∈ Subscribers (event st) →
           outbox (chans st') (Channel s) = outbox (chans st) (Channel s) ++ [data]) ∧
  ¬ (∀ st0 s cs st data st',
       reachable st0 → s ∈ Subscribers (event st0) →
       run (CallUnsubscribe (ID s) :: cs) st0 = Done st →
       Publish data st = Done st' →
       outbox (chans st') (Channel s) = outbox (chans st) (Channel s)).
Proof.
  split.
  - intros Hclaim.
    destruct (Hclaim (after lonely_calls) hi) as (st' & HP & _).
    { exists lonely_calls. vm_compute. reflexivity. }
    vm_compute in HP. discriminate HP.
  - intros Hclaim.
    assert (reachable (after twins_receiving)) as Hreach
      by (exists twins_receiving; vm_compute; reflexivity).
    assert (mkSubscriber "1700000000" false 1
              ∈ Subscribers (event (after twins_receiving))) as Hin
      by (vm_compute; apply list_elem_of_further, list_elem_of_here).
    assert (∃ st st',
              run [CallUnsubscribe "1700000000"] (after twins_receiving) = Done st ∧
              Publish hi st = Done st' ∧
              outbox (chans st) 1 = [] ∧ outbox (chans st') 1 = [hi])
      as (st & st' & Hrun & HP & Hbefore & Hafter).
    { eexists _, _. split; [vm_compute; reflexivity|].
      split; [vm_compute; reflexivity|]. split; reflexivity. }
    pose proof (Hclaim (after twins_receiving) (mkSubscriber "1700000000" false 1)
                  [] st hi st' Hreach Hin Hrun HP) as Heq.
    simpl in Heq. rewrite Hbefore, Hafter in Heq. discriminate Heq.
Qed.

Lemma Publish_order_witness :
  let st := after fan_out_calls in
  let st' := run_from later_calls st in
  let s := mkSubscriber "1700000002" false 1 in
  reachable st ∧ s ∈ Subscribers (event st) ∧
  run later_calls st = Done st' ∧
  ∃ l, outbox (chans st') 1 = outbox (chans st) 1 ++ hi :: l ∧
    (s ∈ Subscribers (event st') → ∃ l', l = l' ++ [bye]).
Proof.
  intros st st' s.
  assert (s ∈ Subscribers (event st)) as Hin.
  { vm_compute. apply list_elem_of_further, list_elem_of_here. }
  assert (run later_calls st = Done st') as Hrun by (vm_compute; reflexivity).
  split; [exact reachable_after_fan_out|]. split; [exact Hin|]. split; [exact Hrun|].
  exact (proj1 (Publish_order st s hi bye reachable_after_fan_out Hin)
           [CallSubscribe 1700000009; Receiver 4 true] st' Hrun).
Defined.

Lemma session_unsubscribes_once_witness :
  let r := receiveChatHandler true same_second demo_script init in
  r = (r.1.1, r.1.2, r.2) ∧
  r.1.2 = Returned ∧
  unsubscribe_calls r.1.1 = ["1700000000"] ∧
  last r.1.1 = Some (DoUnsubscribe "1700000000").
Proof.
  intros r.
  destruct (session_unsubscribes_once true same_second demo_script init
              r.1.1 r.1.2 r.2 eq_refl) as (_ & Hok).
  destruct (Hok eq_refl) as (_ & _ & Hret & _).
  split; [reflexivity|]. split; [reflexivity|].
  destruct (Hret eq_refl) as (Hcalls & Hlast & _).
  split; [exact Hcalls | exact Hlast].
Defined.

Lemma Publish_no_subscribers_witness :
  Subscribers (event init) = [] ∧ Publish hi init = Done init.
Proof.
  split; [reflexivity|]. apply (Publish_no_subscribers init hi). reflexivity.
Defined.

Lemma Closed_never_set_witness :
  reachable (after fan_out_calls) ∧
  Forall (λ s, Closed s = false) (Subscribers (event (after fan_out_calls))).
Proof.
  split; [exact reachable_after_fan_out|].
  exact (proj1 (Closed_never_set (after fan_out_calls) reachable_after_fan_out)).
Defined.

Lemma Publish_frame_witness :
  reachable (after fan_out_calls) ∧
  receivers_present (after fan_out_calls) ∧
  ∃ st', Publish hi (after fan_out_calls) = Done st' ∧
    event st' = event (after fan_out_calls) ∧
    length (chans st') = length (chans (after fan_out_calls)).
Proof.
  split; [exact reachable_after_fan_out|]. split; [exact receivers_after_fan_out|].
  destruct (Publish_frame (after fan_out_calls) hi) as [Hframe Hreturns].
  destruct (Hreturns reachable_after_fan_out receivers_after_fan_out) as [st' HP].
  exists st'. split; [exact HP|].
  destruct (Hframe st' HP) as (Hev & Hlen & _). split; [exact Hev | exact Hlen].
Defined.

(** * More on the registry *)

Section accounting.
Implicit Types (st : State) (s : Subscriber) (id : string) (c : nat).

Lemma is_closed_lt (h : list chan) c : is_closed h c = true → c < length h.
Proof.
  unfold is_closed. destruct (h !! c) as [ch|] eqn:Hc; [|done].
  intros _. by eapply lookup_lt_Some.
Qed.

Lemma is_closed_app_lt (h : list chan) ch c :
  c < length h → is_closed (h ++ [ch]) c = is_closed h c.
Proof. intros Hlt. unfold is_closed. by rewrite lookup_app_l. Qed.

Lemma accounted_init : accounted init.
Proof. intros c Hc. simpl in Hc. lia. Qed.

Lemma step_accounted call st st' :
  wf st → accounted st → step call st = Done st' → accounted st'.
Proof.
  intros Hwf Hacc Hstep c. destruct call as [now|id|data|c' present]; simpl in Hstep.
  - injection Hstep as <-. unfold live_chans. simpl.
    rewrite length_app, fmap_app. simpl. intros Hc.
    destruct (decide (c = length (chans st))) as [->|Hne].
    + left. apply elem_of_app. right. apply list_elem_of_here.
    + destruct (Hacc c) as [Hlive|Hcl]; [lia| |].
      * left. apply elem_of_app. by left.
      * right. by apply is_closed_app.
  - destruct (Unsubscribe_wf id st Hwf)
      as [[_ HU]|(pre & s & post & ch & Hl & _ & _ & Hch & _ & _ & HU)];
      rewrite HU in Hstep; injection Hstep as <-; [apply Hacc|].
    unfold live_chans. simpl. rewrite length_insert. intros Hc.
    destruct (decide (Channel s = c)) as [<-|Hne].
    + right. by rewrite (is_closed_insert_eq _ _ ch).
    + rewrite is_closed_insert_ne by done.
      destruct (Hacc c Hc) as [Hlive|Hcl]; [left|by right].
      unfold live_chans in Hlive. rewrite Hl in Hlive.
      rewrite fmap_app, fmap_cons, elem_of_app, elem_of_cons in Hlive.
      rewrite fmap_app, elem_of_app.
      destruct Hlive as [?|[?|?]]; [by left|congruence|by right].
  - destruct (Publish_wf data st st' Hwf Hstep) as (h' & -> & Hlen & Hcl & _).
    unfold live_chans. simpl. rewrite Hlen, Hcl. apply Hacc.
  - injection Hstep as <-. unfold live_chans. simpl.
    rewrite set_receiver_length, set_receiver_is_closed. apply Hacc.
Qed.

Lemma run_accounted cs st st' :
  wf st → accounted st → run cs st = Done st' → accounted st'.
Proof.
  revert st. induction cs as [|call cs IH]; intros st Hwf Hacc.
  - by intros [= <-].
  - intros (st1 & Hstep & Hrun)%run_cons_inv.
    apply (IH st1); [by eapply step_preserves_wf| |done].
    exact (step_accounted call st st1 Hwf Hacc Hstep).
Qed.

Lemma reachable_accounted st : reachable st → accounted st.
Proof.
  intros [cs Hrun]. eapply run_accounted; [apply wf_init|apply accounted_init|done].
Qed.

Lemma elem_of_live_chans st s :
  s ∈ Subscribers (event st) → Channel s ∈ live_chans st.
Proof. intros Hs. unfold live_chans. apply list_elem_of_fmap. eauto. Qed.

Lemma live_not_closed st c :
  wf st → c ∈ live_chans st → is_closed (chans st) c = false.
Proof. intros Hwf Hc. by apply open_in_is_closed, (wf_open _ Hwf). Qed.
End accounting.


(** In every reachable state a channel made by [Subscribe] is closed exactly
    when its subscriber is no longer in the live set: live channels are
    open, and no channel is left open once its entry is dropped. *)
Theorem closed_iff_dropped st c :
  reachable st → c < length (chans st) →
  is_closed (chans st) c = true ↔ c ∉ live_chans st.
Proof.
  intros Hreach Hc. pose proof (reachable_wf st Hreach) as Hwf.
  split.
  - intros Hcl Hlive. apply (live_not_closed st c Hwf) in Hlive. congruence.
  - intros Hnot. by destruct (reachable_accounted st Hreach c Hc).
Qed.

(** In every reachable state the live subscribers have pairwise different
    channels, each of them made and open, also when two of them carry the
    same id. *)
Theorem live_channels_distinct st :
  reachable st →
  NoDup (live_chans st) ∧
  ∀ s, s ∈ Subscribers (event st) →
    Channel s < length (chans st) ∧ is_closed (chans st) (Channel s) = false.
Proof.
  intros Hwf%reachable_wf. split; [apply (wf_nodup _ Hwf)|].
  intros s Hs%elem_of_live_chans. split.
  - by apply open_in_lt, (wf_open _ Hwf).
  - by apply live_not_closed.
Qed.

Section delivery.
Implicit Types (st : State) (s : Subscriber) (id : string) (c : nat).

Lemma Unsubscribe_outbox id st st' c :
  wf st → Unsubscribe id st = Done st' → outbox (chans st') c = outbox (chans st) c.
Proof.
  intros Hwf HU.
  destruct (Unsubscribe_wf id st Hwf)
    as [[_ HU']|(pre & s & post & ch & _ & _ & _ & Hch & _ & _ & HU')];
    rewrite HU' in HU; injection HU as <-; [done|]. simpl.
  destruct (decide (Channel s = c)) as [<-|Hne].
  - rewrite (outbox_insert_eq _ _ ch) by done. unfold outbox. by rewrite Hch.
  - by rewrite outbox_insert_ne.
Qed.

Lemma step_length call st st' :
  wf st → step call st = Done st' → length (chans st) ≤ length (chans st').
Proof.
  intros Hwf Hstep. destruct call as [now|id|data|c present]; simpl in Hstep.
  - injection Hstep as <-. simpl. rewrite length_app. lia.
  - destruct (Unsubscribe_wf id st Hwf)
      as [[_ HU]|(pre & s & post & ch & _ & _ & _ & _ & _ & _ & HU)];
      rewrite HU in Hstep; injection Hstep as <-; [done|]. simpl.
    by rewrite length_insert.
  - destruct (Publish_wf data st st' Hwf Hstep) as (h' & -> & Hlen & _).
    simpl. lia.
  - injection Hstep as <-. simpl. by rewrite set_receiver_length.
Qed.

Lemma publishes_cons call cs : publishes (call :: cs) = publishes [call] ++ publishes cs.
Proof. by destruct call. Qed.

(** One call, seen from a channel that is still open after it. *)
Lemma step_outbox_exact call st st' c :
  wf st → accounted st → c < length (chans st) →
  step call st = Done st' → is_closed (chans st') c = false →
  outbox (chans st') c = outbox (chans st) c ++ publishes [call].
Proof.
  intros Hwf Hacc Hc Hstep Hopen.
  assert (c ∈ live_chans st) as Hlive.
  { destruct (Hacc c Hc) as [?|Hcl]; [done|].
    pose proof (step_is_closed call st st' c Hwf Hstep Hcl). congruence. }
  destruct call as [now|id|data|c' present]; simpl in Hstep.
  - injection Hstep as <-. simpl. rewrite outbox_app, decide_False by lia. done.
  - rewrite (Unsubscribe_outbox id st st' c Hwf Hstep). simpl. by rewrite app_nil_r.
  - destruct (Publish_wf data st st' Hwf Hstep) as (h' & -> & _ & _ & _ & _ & Hout).
    simpl. by rewrite Hout, decide_True.
  - injection Hstep as <-. simpl. by rewrite set_receiver_outbox, app_nil_r.
Qed.

Lemma run_outbox_exact cs st st' c :
  wf st → accounted st → c < length (chans st) →
  run cs st = Done st' → is_closed (chans st') c = false →
  outbox (chans st') c = outbox (chans st) c ++ publishes cs.
Proof.
  revert st. induction cs as [|call cs IH]; intros st Hwf Hacc Hc Hrun Hopen.
  - injection Hrun as <-. by rewrite app_nil_r.
  - apply run_cons_inv in Hrun as (st1 & Hstep & Hrun).
    pose proof (step_preserves_wf call st st1 Hwf Hstep) as Hwf1.
    assert (is_closed (chans st1) c = false) as Hopen1.
    { destruct (is_closed (chans st1) c) eqn:Hcl; [|done].
      pose proof (run_is_closed cs st1 st' c Hwf1 Hrun Hcl). congruence. }
    pose proof (step_accounted call st st1 Hwf Hacc Hstep) as Hacc1.
    pose proof (step_length call st st1 Hwf Hstep) as Hlen.
    rewrite (IH st1 Hwf1 Hacc1 ltac:(lia) Hrun Hopen).
    rewrite (step_outbox_exact call st st1 c Hwf Hacc Hc Hstep Hopen1).
    by rewrite (publishes_cons call cs), app_assoc.
Qed.

(** One call, seen from a closed channel. *)
Lemma step_outbox_closed call st st' c :
  wf st → step call st = Done st' → is_closed (chans st) c = true →
  outbox (chans st') c = outbox (chans st) c.
Proof.
  intros Hwf Hstep Hcl. destruct call as [now|id|data|c' present]; simpl in Hstep.
  - injection Hstep as <-. simpl. apply is_closed_lt in Hcl.
    rewrite outbox_app, decide_False by lia. by rewrite app_nil_r.
  - by apply (Unsubscribe_outbox id).
  - destruct (Publish_wf data st st' Hwf Hstep) as (h' & -> & _ & _ & _ & _ & Hout).
    simpl. rewrite Hout, decide_False; [by rewrite app_nil_r|].
    intros Hlive%(live_not_closed st c Hwf). congruence.
  - injection Hstep as <-. simpl. by rewrite set_receiver_outbox.
Qed.

Lemma run_outbox_closed cs st st' c :
  wf st → run cs st = Done st' → is_closed (chans st) c = true →
  outbox (chans st') c = outbox (chans st) c.
Proof.
  revert st. induction cs as [|call cs IH]; intros st Hwf.
  - by intros [= <-].
  - intros (st1 & Hstep & Hrun)%run_cons_inv Hcl.
    pose proof (step_preserves_wf call st st1 Hwf Hstep) as Hwf1.
    rewrite (IH st1 Hwf1 Hrun (step_is_closed call st st1 c Hwf Hstep Hcl)).
    exact (step_outbox_closed call st st1 c Hwf Hstep Hcl).
Qed.
End delivery.

(** A subscriber that is still in the live set holds in its outbox exactly
    the payloads published since its [Subscribe], once each and in the order
    of the [Publish] calls; what was published before it subscribed is not
    delivered to it. *)
Theorem outbox_since_Subscribe now st cs st' :
  reachable st →
  run cs (Subscribe now st).2 = Done st' →
  (Subscribe now st).1 ∈ Subscribers (event st') →
  outbox (chans st') (Channel (Subscribe now st).1) = publishes cs.
Proof.
  intros Hreach Hrun Hlive.
  pose proof (reachable_wf st Hreach) as Hwf.
  pose proof (Subscribe_wf now st Hwf) as Hwf1.
  assert (accounted (Subscribe now st).2) as Hacc1.
  { apply (step_accounted (CallSubscribe now) st); [done| |done].
    by apply reachable_accounted. }
  rewrite (run_outbox_exact cs (Subscribe now st).2 st'); try done.
  - simpl. unfold outbox. rewrite lookup_app_r by done.
    by rewrite Nat.sub_diag.
  - simpl. rewrite length_app. simpl. lia.
  - apply live_not_closed; [by eapply run_preserves_wf|].
    by apply elem_of_live_chans.
Qed.

(** Between two states in which a subscriber is live, its outbox grows by
    exactly the payloads published in between, in order, whatever other
    subscribers come and go. *)
Theorem outbox_while_live st s cs st' :
  reachable st → s ∈ Subscribers (event st) →
  run cs st = Done st' → s ∈ Subscribers (event st') →
  outbox (chans st') (Channel s) = outbox (chans st) (Channel s) ++ publishes cs.
Proof.
  intros Hreach Hs Hrun Hs'. pose proof (reachable_wf st Hreach) as Hwf.
  apply run_outbox_exact; try done.
  - by apply reachable_accounted.
  - by apply open_in_lt, (wf_open _ Hwf), elem_of_live_chans.
  - apply live_not_closed; [by eapply run_preserves_wf|].
    by apply elem_of_live_chans.
Qed.

(** Once a channel is closed, no later call delivers to it or reopens it,
    and no later subscriber is given it. *)
Theorem closed_outbox_frozen st c cs st' :
  reachable st → is_closed (chans st) c = true → run cs st = Done st' →
  outbox (chans st') c = outbox (chans st) c ∧
  is_closed (chans st') c = true ∧
  c ∉ live_chans st'.
Proof.
  intros Hwf%reachable_wf Hcl Hrun.
  pose proof (run_is_closed cs st st' c Hwf Hrun Hcl) as Hcl'.
  split; [by apply (run_outbox_closed cs)|]. split; [done|].
  intros Hlive%live_not_closed; [congruence|]. by eapply run_preserves_wf.
Qed.

(** [Subscribe] puts the new subscriber at the end of the live set, on a
    channel no live subscriber has, open and with nothing delivered; the
    other channels keep their outboxes and their closed flags. *)
Theorem Subscribe_fresh now st :
  reachable st →
  let s := (Subscribe now st).1 in
  let st' := (Subscribe now st).2 in
  Subscribers (event st') = Subscribers (event st) ++ [s] ∧
  (Channel s ∉ live_chans st) ∧
  outbox (chans st') (Channel s) = [] ∧
  is_closed (chans st') (Channel s) = false ∧
  ∀ c, c ≠ Channel s →
    outbox (chans st') c = outbox (chans st) c ∧
    is_closed (chans st') c = is_closed (chans st) c.
Proof.
  intros Hwf%reachable_wf. simpl. split; [done|]. split.
  { intros Hlive%(wf_open _ Hwf)%open_in_lt. lia. }
  unfold outbox, is_closed. rewrite lookup_app_r by done. rewrite Nat.sub_diag.
  simpl. split; [done|]. split; [done|]. intros c Hne.
  destruct (decide (c < length (chans st))) as [Hlt|Hge].
  - by rewrite lookup_app_l.
  - rewrite lookup_app_r by lia. rewrite (lookup_ge_None_2 (chans st)) by lia.
    destruct (c - length (chans st)) as [|n] eqn:Hn; [lia|done].
Qed.

(** * More on [Unsubscribe] and on identifiers *)

Section ids.
Implicit Types (st : State) (s : Subscriber) (id : string) (c : nat).

Lemma Forall_not_id id (l : list Subscriber) :
  Forall (λ s, ID s ≠ id) l ↔ id ∉ ID <$> l.
Proof.
  rewrite Forall_forall. split.
  - intros Hall (s & Hs & Hin)%list_elem_of_fmap. by apply (Hall s).
  - intros Hnot s Hin Heq. apply Hnot, list_elem_of_fmap. eauto.
Qed.

Lemma step_live_ids call st st' :
  step call st = Done st' →
  live_ids st' `sublist_of` live_ids st ++ (Sprintf_d <$> subscribe_times [call]).
Proof.
  unfold live_ids. destruct call as [now|id|data|c present]; simpl; intros Hstep.
  - injection Hstep as <-. simpl. by rewrite fmap_app.
  - rewrite app_nil_r.
    destruct (Unsubscribe_cases id st) as [[_ HU]|(pre & s & post & Hl & _ & _ & HU)];
      rewrite HU in Hstep.
    + by injection Hstep as <-.
    + destruct (close (Channel s) (chans st)) as [h| |]; simpl in Hstep; [|done..].
      injection Hstep as <-. simpl. rewrite Hl, !fmap_app, fmap_cons.
      apply sublist_app; [done|]. by apply sublist_cons.
  - rewrite app_nil_r. unfold Publish in Hstep.
    destruct (Publish_loop data (Subscribers (event st)) (chans st)) as [h| |];
      simpl in Hstep; [|done..].
    by injection Hstep as <-.
  - rewrite app_nil_r. by injection Hstep as <-.
Qed.

Lemma run_live_ids cs st st' :
  run cs st = Done st' →
  live_ids st' `sublist_of` live_ids st ++ (Sprintf_d <$> subscribe_times cs).
Proof.
  revert st. induction cs as [|call cs IH]; intros st Hrun.
  - injection Hrun as <-. by rewrite app_nil_r.
  - simpl in Hrun. destruct (step call st) as [st1| |] eqn:Hstep; simpl in Hrun; [|done..].
    etrans; [apply (IH st1 Hrun)|].
    replace (subscribe_times (call :: cs))
      with (subscribe_times [call] ++ subscribe_times cs) by by destruct call.
    rewrite fmap_app, app_assoc. apply sublist_app; [|done].
    by apply step_live_ids.
Qed.
End ids.

(** Whenever [Unsubscribe] returns, either no live subscriber has the id and
    the state is as before, or the first entry with the id, and only that
    entry, is gone from the live set, the others keeping their order, and
    its channel, and only that channel, has become closed.  No outbox
    changes. *)
Theorem Unsubscribe_drops_first id st st' :
  Unsubscribe id st = Done st' →
  ((id ∉ live_ids st) ∧ st' = st ∨
   ∃ pre s post,
     Subscribers (event st) = pre ++ s :: post ∧
     (id ∉ ID <$> pre) ∧ ID s = id ∧
     Subscribers (event st') = pre ++ post ∧
     is_closed (chans st) (Channel s) = false ∧
     is_closed (chans st') (Channel s) = true ∧
     ∀ c, c ≠ Channel s → is_closed (chans st') c = is_closed (chans st) c) ∧
  ∀ c, outbox (chans st') c = outbox (chans st) c.
Proof.
  intros HU.
  destruct (Unsubscribe_cases id st)
    as [[Hall HU']|(pre & s & post & Hl & Hall & Hs & HU')]; rewrite HU' in HU.
  - injection HU as <-. split; [|done]. left. split; [|done].
    by apply Forall_not_id.
  - destruct (close (Channel s) (chans st)) as [h| |] eqn:Hclose; simpl in HU; [|done..].
    injection HU as <-. simpl.
    apply close_inv in Hclose as (ch & Hch & Hopen & ->).
    split.
    + right. exists pre, s, post. split; [done|]. split; [by apply Forall_not_id|].
      split; [done|]. split; [done|]. split.
      { unfold is_closed. by rewrite Hch. }
      split; [by rewrite (is_closed_insert_eq _ _ ch)|].
      intros c Hne. by rewrite is_closed_insert_ne.
    + intros c. destruct (decide (Channel s = c)) as [<-|Hne].
      * rewrite (outbox_insert_eq _ _ ch) by done. unfold outbox. by rewrite Hch.
      * by rewrite outbox_insert_ne.
Qed.

(** [Unsubscribe] with an id that no live subscriber has returns without a
    fault and leaves the state as it is, in any state whatever. *)
Theorem Unsubscribe_unknown_id id st :
  id ∉ live_ids st → Unsubscribe id st = Done st.
Proof.
  intros Hnot. apply Unsubscribe_loop_no_match. by apply Forall_not_id.
Qed.

(** While the live ids are pairwise different, [Unsubscribe(id)] leaves no
    live subscriber with that id, keeps the remaining ids pairwise
    different, and a second [Unsubscribe(id)] changes nothing. *)
Theorem Unsubscribe_unique_ids id st :
  reachable st → NoDup (live_ids st) →
  ∃ st', Unsubscribe id st = Done st' ∧
    (id ∉ live_ids st') ∧
    NoDup (live_ids st') ∧
    Unsubscribe id st' = Done st'.
Proof.
  intros Hwf%reachable_wf Hnd.
  destruct (Unsubscribe_returns id st Hwf) as (st' & HU & _).
  exists st'. split; [done|].
  pose proof (Unsubscribe_removes_unique id st st' Hwf Hnd HU) as Hgone.
  split; [done|]. split.
  - pose proof (step_live_ids (CallUnsubscribe id) st st' HU) as Hsub.
    simpl in Hsub. rewrite app_nil_r in Hsub.
    eapply sublist_NoDup; eassumption.
  - by apply Unsubscribe_loop_no_match, Forall_not_id.
Qed.

(** When the [Subscribe] calls of a history read pairwise different clock
    seconds, the live subscribers have pairwise different ids. *)
Theorem distinct_seconds_distinct_ids cs st :
  NoDup (subscribe_times cs) → run cs init = Done st → NoDup (live_ids st).
Proof.
  intros Hnd Hrun. eapply sublist_NoDup; [|exact (run_live_ids cs init st Hrun)].
  simpl. apply NoDup_fmap_2; [|done].
  intros now1 now2. apply Sprintf_d_inj.
Qed.

(** * More on the stream session *)

Section relay.
Implicit Types (script : list select_case) (acts : list action).

Lemma stream_loop_frames script :
  frames (stream_loop script).1 = sse_frame <$> received script.
Proof.
  induction script as [|[data fails|] script IH]; simpl; [done| |done].
  destruct (stream_loop script) as [acts st]. unfold frames in *. simpl in *.
  by f_equal.
Qed.

Lemma stream_loop_flushed script acts :
  each_write_flushed ((stream_loop script).1 ++ acts) = each_write_flushed acts.
Proof.
  induction script as [|[data fails|] script IH]; simpl; [done| |done].
  destruct (stream_loop script) as [acts' st]. simpl in *. done.
Qed.

End relay.

(** What a session writes to the peer is one frame, [data: ] then the
    payload then two newlines, for each payload it received before its
    context was done, in the order received; a failed write does not keep
    the later payloads from being written, nothing is written for what
    comes after the cancellation, and every write is directly followed by a
    flush.  A session without a flusher writes no frame. *)
Theorem session_relays_in_order flusher_ok now script st acts status out :
  receiveChatHandler flusher_ok now script st = (acts, status, out) →
  frames acts = (if flusher_ok then sse_frame <$> received script else []) ∧
  each_write_flushed acts = true.
Proof.
  unfold receiveChatHandler. destruct flusher_ok; simpl.
  2: { by intros [= <- <- <-]. }
  pose proof (stream_loop_frames script) as Hframes.
  pose proof (stream_loop_flushed script) as Hflushed.
  destruct (stream_loop script) as [loop_acts [|]]; simpl in *;
    intros [= <- <- <-]; unfold frames in *; simpl.
  - split; [done|]. specialize (Hflushed []). by rewrite app_nil_r in Hflushed.
  - rewrite omap_app, Hframes. simpl. rewrite app_nil_r. split; [done|].
    by rewrite Hflushed.
Qed.

(** A session whose id no live subscriber has, run to its cancellation,
    leaves the live set as it found it: the entry its [Subscribe] added is
    the one its deferred [Unsubscribe] drops, its channel ends closed, and
    the channels that were there keep their outboxes and closed flags. *)
Theorem session_leaves_live_set now script st acts status out :
  Sprintf_d now ∉ live_ids st → CtxDone ∈ script →
  receiveChatHandler true now script st = (acts, status, out) →
  ∃ st', out = Done st' ∧
    Subscribers (event st') = Subscribers (event st) ∧
    is_closed (chans st') (Channel (Subscribe now st).1) = true ∧
    ∀ c, c < length (chans st) →
      outbox (chans st') c = outbox (chans st) c ∧
      is_closed (chans st') c = is_closed (chans st) c.
Proof.
  intros Hfresh Hdone%stream_loop_Returned. unfold receiveChatHandler. simpl.
  destruct (stream_loop script) as [loop_acts status']. simpl in Hdone. subst status'.
  intros [= <- <- <-]. unfold Unsubscribe. simpl.
  rewrite (Unsubscribe_loop_match _ 0 (Subscribers (event st)) _ [])
    by (by apply Forall_not_id || done).
  simpl. unfold close. rewrite lookup_app_r by done. rewrite Nat.sub_diag. simpl.
  eexists. split; [done|]. simpl.
  rewrite take_app_length.
  replace (S (length (Subscribers (event st))))
    with (length (Subscribers (event st) ++ [mkSubscriber (Sprintf_d now) false (length (chans st))]))
    by (rewrite length_app; simpl; lia).
  rewrite drop_all, app_nil_r. split; [done|].
  unfold is_closed, outbox. split.
  - rewrite list_lookup_insert_eq; [done|]. rewrite length_app. simpl. lia.
  - intros c Hc. rewrite list_lookup_insert_ne by lia.
    by rewrite lookup_app_l.
Qed.

(** * The send endpoint *)


(** [Publish] waits for ever at the first live subscriber nobody receives
    for, the subscribers before it having a receiver each; it does not
    return, so the subscribers after it are not reached. *)
Theorem Publish_blocks_without_receiver st data pre s post :
  reachable st →
  Subscribers (event st) = pre ++ s :: post →
  Forall (λ s', has_receiver (chans st) (Channel s') = true) pre →
  has_receiver (chans st) (Channel s) = false →
  Publish data st = Block.
Proof.
  intros Hwf%reachable_wf Hl Hpre Hs. unfold Publish.
  destruct Hwf as [Hnd Hopen _]. unfold live_chans in *. rewrite Hl in *.
  rewrite fmap_app, fmap_cons in Hnd, Hopen.
  apply NoDup_app in Hnd as (_ & Hdisj & _).
  rewrite (Publish_loop_blocks data pre s post (chans st)); [done| | |..|done].
  - intros c (s' & -> & Hs')%list_elem_of_fmap. split.
    + apply Hopen, elem_of_app. left. apply list_elem_of_fmap. eauto.
    + rewrite Forall_forall in Hpre. by apply Hpre.
  - intros Hin. apply (Hdisj _ Hin), elem_of_cons. by left.
  - apply Hopen, elem_of_app. right. apply elem_of_cons. by left.
Qed.

(** * The further properties at sample inputs *)

Lemma closed_iff_dropped_witness :
  reachable (after fan_out_calls) ∧ 3 < length (chans (after fan_out_calls)) ∧
  (is_closed (chans (after fan_out_calls)) 3 = true ↔ 3 ∉ live_chans (after fan_out_calls)).
Proof.
  split; [exact reachable_after_fan_out|].
  assert (3 < length (chans (after fan_out_calls))) as Hlt by (vm_compute; lia).
  split; [exact Hlt|].
  exact (closed_iff_dropped (after fan_out_calls) 3 reachable_after_fan_out Hlt).
Defined.

Lemma live_channels_distinct_witness :
  reachable (after twins) ∧ NoDup (live_chans (after twins)).
Proof.
  assert (reachable (after twins)) as Hreach by (exists twins; vm_compute; reflexivity).
  split; [exact Hreach|].
  exact (proj1 (live_channels_distinct (after twins) Hreach)).
Defined.

Lemma outbox_since_Subscribe_witness :
  let st := after fan_out_calls in
  let st' := run_from newcomer_calls (Subscribe 1700000005 st).2 in
  reachable st ∧
  run newcomer_calls (Subscribe 1700000005 st).2 = Done st' ∧
  (Subscribe 1700000005 st).1 ∈ Subscribers (event st') ∧
  outbox (chans st') (Channel (Subscribe 1700000005 st).1) = [hi; bye].
Proof.
  intros st st'.
  assert (run newcomer_calls (Subscribe 1700000005 st).2 = Done st') as Hrun
    by (vm_compute; reflexivity).
  assert ((Subscribe 1700000005 st).1 ∈ Subscribers (event st')) as Hlive.
  { vm_compute. do 3 apply list_elem_of_further. apply list_elem_of_here. }
  split; [exact reachable_after_fan_out|]. split; [exact Hrun|]. split; [exact Hlive|].
  exact (outbox_since_Subscribe 1700000005 st newcomer_calls st'
           reachable_after_fan_out Hrun Hlive).
Defined.

Lemma outbox_while_live_witness :
  let st := after fan_out_calls in
  let st' := run_from later_calls st in
  let s := mkSubscriber "1700000002" false 1 in
  reachable st ∧ s ∈ Subscribers (event st) ∧
  run later_calls st = Done st' ∧ s ∈ Subscribers (event st') ∧
  outbox (chans st') 1 = outbox (chans st) 1 ++ [hi; bye].
Proof.
  intros st st' s.
  assert (s ∈ Subscribers (event st)) as Hs.
  { vm_compute. apply list_elem_of_further, list_elem_of_here. }
  assert (run later_calls st = Done st') as Hrun by (vm_compute; reflexivity).
  assert (s ∈ Subscribers (event st')) as Hs'.
  { vm_compute. apply list_elem_of_further, list_elem_of_here. }
  split; [exact reachable_after_fan_out|]. split; [exact Hs|].
  split; [exact Hrun|]. split; [exact Hs'|].
  exact (outbox_while_live st s later_calls st' reachable_after_fan_out Hs Hrun Hs').
Defined.

Lemma closed_outbox_frozen_witness :
  let st := after fan_out_calls in
  let st' := run_from later_calls st in
  reachable st ∧ is_closed (chans st) 3 = true ∧ run later_calls st = Done st' ∧
  outbox (chans st') 3 = outbox (chans st) 3 ∧
  is_closed (chans st') 3 = true ∧
  3 ∉ live_chans st'.
Proof.
  intros st st'.
  assert (is_closed (chans st) 3 = true) as Hcl by (vm_compute; reflexivity).
  assert (run later_calls st = Done st') as Hrun by (vm_compute; reflexivity).
  split; [exact reachable_after_fan_out|]. split; [exact Hcl|]. split; [exact Hrun|].
  exact (closed_outbox_frozen st 3 later_calls st' reachable_after_fan_out Hcl Hrun).
Defined.

Lemma Subscribe_fresh_witness :
  let st := after fan_out_calls in
  reachable st ∧
  Subscribers (event (Subscribe 1700000005 st).2)
    = Subscribers (event st) ++ [(Subscribe 1700000005 st).1] ∧
  outbox (chans (Subscribe 1700000005 st).2) (Channel (Subscribe 1700000005 st).1) = [].
Proof.
  intros st. split; [exact reachable_after_fan_out|].
  destruct (Subscribe_fresh 1700000005 st reachable_after_fan_out)
    as (Hsubs & _ & Hout & _).
  split; [exact Hsubs | exact Hout].
Defined.

Lemma Unsubscribe_drops_first_witness :
  let st := after twins in
  let st' := run_from [CallUnsubscribe "1700000000"] st in
  Unsubscribe "1700000000" st = Done st' ∧
  ∀ c, outbox (chans st') c = outbox (chans st) c.
Proof.
  intros st st'.
  assert (Unsubscribe "1700000000" st = Done st') as HU by (vm_compute; reflexivity).
  split; [exact HU|].
  exact (proj2 (Unsubscribe_drops_first "1700000000" st st' HU)).
Defined.

Lemma Unsubscribe_unknown_id_witness :
  ("1700000004" ∉ live_ids (after fan_out_calls)) ∧
  Unsubscribe "1700000004" (after fan_out_calls) = Done (after fan_out_calls).
Proof.
  assert ("1700000004" ∉ live_ids (after fan_out_calls)) as Hnot.
  { apply (bool_decide_unpack _). vm_compute. exact I. }
  split; [exact Hnot|].
  exact (Unsubscribe_unknown_id "1700000004" (after fan_out_calls) Hnot).
Defined.

Lemma Unsubscribe_unique_ids_witness :
  let st := after fan_out_calls in
  reachable st ∧ NoDup (live_ids st) ∧
  ∃ st', Unsubscribe "1700000002" st = Done st' ∧
    ("1700000002" ∉ live_ids st') ∧
    NoDup (live_ids st') ∧
    Unsubscribe "1700000002" st' = Done st'.
Proof.
  intros st.
  assert (NoDup (live_ids st)) as Hnd.
  { apply (bool_decide_unpack _). vm_compute. exact I. }
  split; [exact reachable_after_fan_out|]. split; [exact Hnd|].
  exact (Unsubscribe_unique_ids "1700000002" st reachable_after_fan_out Hnd).
Defined.

Lemma distinct_seconds_distinct_ids_witness :
  NoDup (subscribe_times fan_out_calls) ∧
  run fan_out_calls init = Done (after fan_out_calls) ∧
  NoDup (live_ids (after fan_out_calls)).
Proof.
  assert (NoDup (subscribe_times fan_out_calls)) as Hnd.
  { apply (bool_decide_unpack _). vm_compute. exact I. }
  assert (run fan_out_calls init = Done (after fan_out_calls)) as Hrun
    by (vm_compute; reflexivity).
  split; [exact Hnd|]. split; [exact Hrun|].
  exact (distinct_seconds_distinct_ids fan_out_calls (after fan_out_calls) Hnd Hrun).
Defined.

Lemma session_relays_in_order_witness :
  let r := receiveChatHandler true same_second demo_script init in
  r = (r.1.1, r.1.2, r.2) ∧
  frames r.1.1 = [sse_frame hi; sse_frame bye] ∧
  each_write_flushed r.1.1 = true.
Proof.
  intros r. split; [reflexivity|].
  exact (session_relays_in_order true same_second demo_script init
           r.1.1 r.1.2 r.2 eq_refl).
Defined.

Lemma session_leaves_live_set_witness :
  let st := after fan_out_calls in
  let r := receiveChatHandler true same_second demo_script st in
  (Sprintf_d same_second ∉ live_ids st) ∧ CtxDone ∈ demo_script ∧
  r = (r.1.1, r.1.2, r.2) ∧
  ∃ st', r.2 = Done st' ∧ Subscribers (event st') = Subscribers (event st).
Proof.
  intros st r.
  assert (Sprintf_d same_second ∉ live_ids st) as Hfresh.
  { apply (bool_decide_unpack _). vm_compute. exact I. }
  assert (CtxDone ∈ demo_script) as Hdone.
  { do 2 apply list_elem_of_further. apply list_elem_of_here. }
  split; [exact Hfresh|]. split; [exact Hdone|]. split; [reflexivity|].
  destruct (session_leaves_live_set same_second demo_script st
              r.1.1 r.1.2 r.2 Hfresh Hdone eq_refl) as (st' & Hout & Hsubs & _).
  exists st'. split; [exact Hout | exact Hsubs].
Defined.


Lemma Publish_blocks_without_receiver_witness :
  let st := after four_sessions in
  let pre := [mkSubscriber "1700000001" false 0; mkSubscriber "1700000002" false 1;
              mkSubscriber "1700000003" false 2] in
  let s := mkSubscriber "1700000004" false 3 in
  reachable st ∧ Subscribers (event st) = pre ++ s :: [] ∧
  Forall (λ s', has_receiver (chans st) (Channel s') = true) pre ∧
  has_receiver (chans st) (Channel s) = false ∧
  Publish hi st = Block.
Proof.
  intros st pre s.
  assert (reachable st) as Hreach by (exists four_sessions; vm_compute; reflexivity).
  assert (Subscribers (event st) = pre ++ s :: []) as Hl by (vm_compute; reflexivity).
  assert (Forall (λ s', has_receiver (chans st) (Channel s') = true) pre) as Hpre.
  { apply (bool_decide_unpack _). vm_compute. exact I. }
  assert (has_receiver (chans st) (Channel s) = false) as Hs by (vm_compute; reflexivity).
  split; [exact Hreach|]. split; [exact Hl|]. split; [exact Hpre|]. split; [exact Hs|].
  exact (Publish_blocks_without_receiver st hi pre s [] Hreach Hl Hpre Hs).
Defined.

Example sendChatHandler_demo :
  (sendChatHandler demo_Decode demo_Marshal [] (after fan_out_calls)
   = Done (ReplyError "EOF" 400, after fan_out_calls)) ∧
  (∃ st', sendChatHandler demo_Decode demo_Marshal hi (after fan_out_calls)
          = Done (ReplyStatus 201 (String.list_byte_of_string "Message sent"), st') ∧
     (λ c, outbox (chans st') c) <$> [0; 1; 2; 3]
     = [[String.list_byte_of_string "u1:hi"]; [String.list_byte_of_string "u1:hi"];
        [String.list_byte_of_string "u1:hi"]; []]) ∧
  sendChatHandler demo_Decode demo_Marshal hi (after lonely_calls) = Block.
Proof.
  split; [vm_compute; reflexivity|]. split; [|vm_compute; reflexivity].
  eexists. split; vm_compute; reflexivity.
Qed.
